(** * The KODO storage driver (registry/storage/driver/kodo/kodo.go)

  A shallow embedding of the driver: its construction from parameters,
  its path-to-key translation, the range-write plan of [WriteStream], and
  the pass-through operations [Stat], [List], [Move], [Delete],
  [ReadStream], [GetContent], [PutContent] and [URLFor], run against a
  model of the remote bucket.  Go values keep their shapes: [int64] is a [Z]
  with its wrap-around written out, a Go [string] is a [string] of bytes,
  a [(value, error)] result is a pair whose second component is an
  [option error] ([None] is Go's [nil]). *)

From Stdlib Require Import ZArith Lia Strings.String Strings.Ascii Strings.Byte.
From stdpp Require Import base list strings gmap sorting.

Open Scope Z_scope.

(** ** Go integers *)

Module Int64.
Definition min_int : Z := - 2 ^ 63.
Definition max_int : Z := 2 ^ 63 - 1.

(** Two's complement wrap-around of a 64-bit signed integer. *)
Definition wrap (z : Z) : Z := (z + 2 ^ 63) mod 2 ^ 64 - 2 ^ 63.

Definition add (a b : Z) : Z := wrap (a + b).
Definition sub (a b : Z) : Z := wrap (a - b).
Definition mul (a b : Z) : Z := wrap (a * b).

Definition in_range (z : Z) : Prop := min_int <= z <= max_int.

End Int64.

(** ** Go strings (package [strings]) *)

Module GoStrings.

Fixpoint drop (n : nat) (s : string) : string :=
  match n, s with
  | O, _ => s
  | S n', String _ s' => drop n' s'
  | S _, EmptyString => EmptyString
  end.

(** [s[len(s)-1]]: [None] is Go's index-out-of-range panic on [""]. *)
Fixpoint last_byte (s : string) : option ascii :=
  match s with
  | EmptyString => None
  | String c EmptyString => Some c
  | String _ s' => last_byte s'
  end.

Fixpoint contains_byte (cutset : string) (c : ascii) : bool :=
  match cutset with
  | EmptyString => false
  | String x cutset' => if Ascii.eqb x c then true else contains_byte cutset' c
  end.

(** [strings.TrimLeft(s, cutset)]. *)
Fixpoint TrimLeft (s cutset : string) : string :=
  match s with
  | EmptyString => EmptyString
  | String c s' => if contains_byte cutset c then TrimLeft s' cutset else s
  end.

(** [strings.TrimRight(s, cutset)]. *)
Fixpoint TrimRight (s cutset : string) : string :=
  match s with
  | EmptyString => EmptyString
  | String c s' =>
      match TrimRight s' cutset with
      | EmptyString => if contains_byte cutset c then EmptyString else String c EmptyString
      | t => String c t
      end
  end.

Definition HasPrefix (s pre : string) : bool := String.prefix pre s.

(** [strings.HasSuffix(s, suffix)]. *)
Fixpoint HasSuffix (s suffix : string) : bool :=
  if String.eqb s suffix then true
  else match s with
       | EmptyString => false
       | String _ s' => HasSuffix s' suffix
       end.

(** [strings.TrimSuffix(s, suffix)]. *)
Fixpoint TrimSuffix (s suffix : string) : string :=
  if String.eqb s suffix then EmptyString
  else match s with
       | EmptyString => EmptyString
       | String c s' => String c (TrimSuffix s' suffix)
       end.

(** [strings.Replace(s, old, new, 1)]: the leftmost occurrence of [old]
    is replaced; an empty [old] matches at the beginning of [s].  The
    driver never passes another count. *)
Fixpoint Replace (s old new : string) : string :=
  if String.prefix old s then new +:+ drop (String.length old) s
  else match s with
       | EmptyString => EmptyString
       | String c s' => String c (Replace s' old new)
       end.

(** The shortest prefix of [s] that ends with the first occurrence of
    [sep] ([s[:strings.Index(s, sep)+len(sep)]]); [None] when [sep] does
    not occur. *)
Fixpoint through (s sep : string) : option string :=
  if String.prefix sep s then Some sep
  else match s with
       | EmptyString => None
       | String c s' => String c <$> through s' sep
       end.

End GoStrings.

(** ** Go errors *)

(** The error values the driver sees: [*rpc.ErrorInfo] (a reply of the
    remote service with a status code), [io.EOF],
    [storagedriver.PathNotFoundError] and any other error, of which only
    the message matters. *)
Inductive error : Type :=
| ErrorInfo (Code : Z) (Err : string)
| EOF
| PathNotFoundError (Path : string)
| errorString (msg : string).

#[global] Instance error_eq_dec : EqDecision error.
Proof. solve_decision. Defined.

(** Modelled from the spec: the [Error()] method of each error kind; those
    of [rpc.ErrorInfo] and [storagedriver.PathNotFoundError] are declared
    outside the driver's file. *)
Definition Error (e : error) : string :=
  match e with
  | ErrorInfo _ msg => msg
  | EOF => "EOF"
  | PathNotFoundError p => "Path not found: " +:+ p
  | errorString msg => msg
  end.

(** ** The remote bucket *)

Module kodo.
(** Modelled from the spec: [kodo.ListItem] of the SDK, one entry of a
    listing, with the fields the driver reads. *)
Record ListItem : Type := { Key : string; Fsize : Z; PutTime : Z }.
(** Modelled from the spec: [kodo.Entry] of the SDK, the reply of
    [Bucket.Stat], with the fields the driver reads. *)
Record Entry : Type := { EntryFsize : Z; EntryPutTime : Z }.
End kodo.

Module qiniurs.
(** Modelled from the spec: [qiniurs.Part] of the vendor's SDK, a part of
    a compose request, either local bytes (the reader [R]) or the byte
    range [From, To) of the remote object [Key], [To = -1] standing for
    the end of the object.  The fields are those the driver sets. *)
Record Part : Type :=
  { FileName : string; R : option (list byte); Key : string; From : Z; To : Z }.
End qiniurs.

(** The two shapes of a part the spec names. *)
Definition RemoteRange (key : string) (start stop : Z) : qiniurs.Part :=
  {| qiniurs.FileName := ""; qiniurs.R := None;
     qiniurs.Key := key; qiniurs.From := start; qiniurs.To := stop |}.
Definition LocalBytes (bytes : list byte) : qiniurs.Part :=
  {| qiniurs.FileName := ""; qiniurs.R := Some bytes;
     qiniurs.Key := ""; qiniurs.From := 0; qiniurs.To := 0 |}.

(** A stored object: its bytes and its upload time. *)
Record Object : Type := { content : list byte; putTime : Z }.

(** An HTTP request of [ReadStream] and its response. *)
Record Request : Type := { Method : string; URL : string; Range : option Z }.
Record Response : Type := { StatusCode : Z; Body : list byte }.

(** The calls that reach the remote service, in the order they are made. *)
Inductive event : Type :=
| EvList (prefix delimiter marker : string) (limit : Z)
| EvStat (key : string)
| EvDelete (key : string)
| EvMove (src dest : string)
| EvPut (key : string) (body : list byte)
| EvPutFile (key : string) (body : list byte)
| EvPutParts (key : string) (parts : list qiniurs.Part)
| EvDo (req : Request).

(** The world outside the driver: the bucket's objects, the outcomes of
    the coming external calls ([Some e] makes the next call fail with [e];
    an exhausted script means every later call goes through), the calls
    made so far, the service's clock and the bucket's download domain. *)
Record World : Type :=
  { objects : gmap string Object;
    script : list (option error);
    trace : list event;
    now : Z;
    domain : string }.

Definition set_objects (m : gmap string Object) (w : World) : World :=
  {| objects := m; script := script w; trace := trace w; now := now w; domain := domain w |}.
Definition set_script (s : list (option error)) (w : World) : World :=
  {| objects := objects w; script := s; trace := trace w; now := now w; domain := domain w |}.
Definition log (ev : event) (w : World) : World :=
  {| objects := objects w; script := script w; trace := trace w ++ [ev]; now := now w; domain := domain w |}.

(** Computations over the world. *)
Definition Remote (A : Type) : Type := World -> A * World.
Definition ret {A} (a : A) : Remote A := fun w => (a, w).
Definition bind {A B} (c : Remote A) (k : A -> Remote B) : Remote B :=
  fun w => let (a, w') := c w in k a w'.

Declare Scope remote_scope.
Delimit Scope remote_scope with remote.
Notation "x <~ c ;; k" := (bind c (fun x => k))
  (at level 100, c at next level, right associativity) : remote_scope.
Open Scope remote_scope.

(** The outcome the script holds for the next external call. *)
Definition attempt : Remote (option error) :=
  fun w => match script w with
           | [] => (None, w)
           | f :: s => (f, set_script s w)
           end.
Definition emit (ev : event) : Remote unit := fun w => (tt, log ev w).
Definition world : Remote World := fun w => (w, w).
Definition store (m : gmap string Object) : Remote unit := fun w => (tt, set_objects m w).

(** *** Listing

    The SDK's [Bucket.List] is not part of the driver's file; the
    definitions below model the service's list-with-prefix-and-delimiter-
    and-continuation call.  Keys are listed in lexicographic order; a
    page holds at most [limit] entries; keys that continue past the
    prefix with the delimiter are grouped under their common prefix; the
    marker handed back names the last key the page consumed and is empty
    once the listing is complete, in which case the SDK reports
    [io.EOF]. *)

Definition key_le (a b : string * Object) : Prop := String.le a.1 b.1.

#[global] Instance key_le_dec : RelDecision key_le.
Proof. intros a b. unfold key_le. apply _. Defined.

(** The bucket's objects in key order. *)
Definition sorted_objects (m : gmap string Object) : list (string * Object) :=
  merge_sort key_le (map_to_list m).

Definition encode_marker (k : string) : string := String "#" k.
Definition decode_marker (marker : string) : string := GoStrings.drop 1 marker.

(** [k] lies strictly after the position a marker names. *)
Definition after_marker (marker k : string) : Prop :=
  marker = "" ∨ strict String.le (decode_marker marker) k.

#[global] Instance after_marker_dec marker k : Decision (after_marker marker k).
Proof. unfold after_marker, strict. apply _. Defined.

Definition listed (prefix marker : string) (ko : string * Object) : Prop :=
  GoStrings.HasPrefix ko.1 prefix = true ∧ after_marker marker ko.1.

#[global] Instance listed_dec prefix marker ko : Decision (listed prefix marker ko).
Proof. unfold listed. apply _. Defined.

(** The objects a listing request still has to report. *)
Definition matching (m : gmap string Object) (prefix marker : string)
  : list (string * Object) :=
  filter (listed prefix marker) (sorted_objects m).

(** The common prefix a key falls under, if any. *)
Definition common_prefix (prefix delimiter k : string) : option string :=
  if String.eqb delimiter "" then None
  else (fun seg => prefix +:+ seg) <$>
         GoStrings.through (GoStrings.drop (String.length prefix) k) delimiter.

Definition list_item (ko : string * Object) : kodo.ListItem :=
  {| kodo.Key := ko.1;
     kodo.Fsize := Z.of_nat (length (content ko.2));
     kodo.PutTime := putTime ko.2 |}.

(** Modelled from the spec: one page of the service's listing (the
    items, the common prefixes and the marker).  [prev] is the common
    prefix reported last (its remaining keys are absorbed), [last] the
    last key consumed. *)
Fixpoint scan (prefix delimiter : string) (limit : nat) (prev : option string)
    (last : string) (kos : list (string * Object))
  : list kodo.ListItem * list string * string :=
  match kos with
  | [] => ([], [], "")
  | ko :: kos' =>
      match common_prefix prefix delimiter ko.1 with
      | Some cp =>
          if decide (prev = Some cp) then scan prefix delimiter limit prev ko.1 kos'
          else match limit with
               | O => ([], [], encode_marker last)
               | S n =>
                   let '(items, prefixes, marker) :=
                     scan prefix delimiter n (Some cp) ko.1 kos' in
                   (items, cp :: prefixes, marker)
               end
      | None =>
          match limit with
          | O => ([], [], encode_marker last)
          | S n =>
              let '(items, prefixes, marker) := scan prefix delimiter n None ko.1 kos' in
              (list_item ko :: items, prefixes, marker)
          end
      end
  end.

(** Modelled from the spec: the page size of the service, which accepts
    1 to 1000 and falls back to 1000. *)
Definition page_size (limit : Z) : nat :=
  if (1 <=? limit) && (limit <=? 1000) then Z.to_nat limit else 1000%nat.

(** Modelled from the spec: [Bucket.List] of the SDK, the
    list-with-prefix-and-delimiter-and-continuation call; it reports
    [io.EOF] together with the last page. *)
Definition bucket_List (prefix delimiter marker : string) (limit : Z)
  : Remote (list kodo.ListItem * list string * string * option error) :=
  _ <~ emit (EvList prefix delimiter marker limit) ;;
  f <~ attempt ;;
  match f with
  | Some e => ret ([], [], "", Some e)
  | None =>
      w <~ world ;;
      let '(items, prefixes, markerOut) :=
        scan prefix delimiter (page_size limit) None ""
          (matching (objects w) prefix marker) in
      ret (items, prefixes, markerOut,
           if String.eqb markerOut "" then Some EOF else None)
  end.

(** *** Objects

    The SDK's stat, delete, move and put calls are not part of the
    driver's file either.  A missing key is reported with status 612 (the
    code [isKeyNotExists] and [parseError] test for), a move onto an
    existing key with status 614. *)

Definition KeyNotExists (key : string) : error := ErrorInfo 612 "no such file or directory".
Definition KeyExists (key : string) : error := ErrorInfo 614 "file exists".

(** Modelled from the spec: [Bucket.Stat] of the SDK. *)
Definition bucket_Stat (key : string) : Remote (kodo.Entry * option error) :=
  _ <~ emit (EvStat key) ;;
  f <~ attempt ;;
  let none := {| kodo.EntryFsize := 0; kodo.EntryPutTime := 0 |} in
  match f with
  | Some e => ret (none, Some e)
  | None =>
      w <~ world ;;
      match objects w !! key with
      | None => ret (none, Some (KeyNotExists key))
      | Some o =>
          ret ({| kodo.EntryFsize := Z.of_nat (length (content o));
                  kodo.EntryPutTime := putTime o |}, None)
      end
  end.

(** Modelled from the spec: [Bucket.Delete] of the SDK. *)
Definition bucket_Delete (key : string) : Remote (option error) :=
  _ <~ emit (EvDelete key) ;;
  f <~ attempt ;;
  match f with
  | Some e => ret (Some e)
  | None =>
      w <~ world ;;
      match objects w !! key with
      | None => ret (Some (KeyNotExists key))
      | Some _ => _ <~ store (delete key (objects w)) ;; ret None
      end
  end.

(** Modelled from the spec: [Bucket.Move] of the SDK. *)
Definition bucket_Move (src dest : string) : Remote (option error) :=
  _ <~ emit (EvMove src dest) ;;
  f <~ attempt ;;
  match f with
  | Some e => ret (Some e)
  | None =>
      w <~ world ;;
      match objects w !! src, objects w !! dest with
      | None, _ => ret (Some (KeyNotExists src))
      | Some _, Some _ => ret (Some (KeyExists dest))
      | Some o, None => _ <~ store (<[dest := o]> (delete src (objects w))) ;; ret None
      end
  end.

(** Modelled from the spec: storing an object, the effect shared by
    [Bucket.Put] and [Bucket.PutFile] of the SDK. *)
Definition put (key : string) (body : list byte) : Remote (option error) :=
  f <~ attempt ;;
  match f with
  | Some e => ret (Some e)
  | None =>
      w <~ world ;;
      _ <~ store (<[key := {| content := body; putTime := now w |}]> (objects w)) ;;
      ret None
  end.

(** Modelled from the spec: [Bucket.Put] of the SDK. *)
Definition bucket_Put (key : string) (body : list byte) : Remote (option error) :=
  _ <~ emit (EvPut key body) ;; put key body.

(** Modelled from the spec: [Bucket.PutFile] of the SDK, which uploads
    the bytes of a local file. *)
Definition bucket_PutFile (key : string) (localFile : list byte) : Remote (option error) :=
  _ <~ emit (EvPutFile key localFile) ;; put key localFile.

(** *** Compose from parts *)

Definition InvalidRange : error := ErrorInfo 400 "invalid range".

(** Modelled from the spec: the bytes a part stands for.  A part with a
    reader contributes the reader's bytes; a part without one contributes
    the bytes [From, To) of the object [Key] as it is stored when the
    request arrives, [To = -1] standing for the end of that object; a
    missing object or a range outside the object is an error. *)
Definition part_bytes (m : gmap string Object) (p : qiniurs.Part) : error + list byte :=
  match qiniurs.R p with
  | Some bytes => inr bytes
  | None =>
      match m !! qiniurs.Key p with
      | None => inl (KeyNotExists (qiniurs.Key p))
      | Some o =>
          let size := Z.of_nat (length (content o)) in
          let from := qiniurs.From p in
          let to := qiniurs.To p in
          if to =? -1 then
            if (0 <=? from) && (from <=? size)
            then inr (drop (Z.to_nat from) (content o))
            else inl InvalidRange
          else
            if (0 <=? from) && (from <=? to) && (to <=? size)
            then inr (take (Z.to_nat (to - from)) (drop (Z.to_nat from) (content o)))
            else inl InvalidRange
      end
  end.

(** Modelled from the spec: the concatenation of the parts, in order. *)
Fixpoint compose (m : gmap string Object) (parts : list qiniurs.Part) : error + list byte :=
  match parts with
  | [] => inr []
  | p :: parts' =>
      match part_bytes m p with
      | inl e => inl e
      | inr bytes =>
          match compose m parts' with
          | inl e => inl e
          | inr rest => inr (bytes ++ rest)
          end
      end
  end.

(** Modelled from the spec: the compose call [qiniurs.PutParts] of the
    vendor's SDK.  The request fails as a whole when a part cannot be
    read; otherwise the concatenation replaces the object at the target
    key.  The upload token the driver signs is left out. *)
Definition qiniurs_PutParts (key : string) (parts : list qiniurs.Part) : Remote (option error) :=
  _ <~ emit (EvPutParts key parts) ;;
  f <~ attempt ;;
  match f with
  | Some e => ret (Some e)
  | None =>
      w <~ world ;;
      match compose (objects w) parts with
      | inl e => ret (Some e)
      | inr bytes =>
          _ <~ store (<[key := {| content := bytes; putTime := now w |}]> (objects w)) ;;
          ret None
      end
  end.

(** *** Download *)

Definition StatusOK : Z := 200.
Definition StatusPartialContent : Z := 206.
Definition StatusNotFound : Z := 404.

(** Modelled from the spec: the HTTP download [Client.Do] performs.  The
    URL is the bucket's download domain followed by the key; the body
    starts at the requested range offset; a missing key answers 404. *)
Definition client_Do (req : Request) : Remote (option Response * option error) :=
  _ <~ emit (EvDo req) ;;
  f <~ attempt ;;
  match f with
  | Some e => ret (None, Some e)
  | None =>
      w <~ world ;;
      let key := GoStrings.drop (String.length (domain w)) (URL req) in
      match (if String.prefix (domain w) (URL req) then objects w !! key else None) with
      | None => ret (Some {| StatusCode := StatusNotFound; Body := [] |}, None)
      | Some o =>
          match Range req with
          | None => ret (Some {| StatusCode := StatusOK; Body := content o |}, None)
          | Some from =>
              ret (Some {| StatusCode := StatusPartialContent;
                           Body := drop (Z.to_nat from) (content o) |}, None)
          end
      end
  end.

(** ** The driver *)

Definition driverName : string := "kodo".
Definition listMax : Z := 1000.
Definition defaultExpiry : Z := 3600.

(** [DriverParameters]; the embedded [kodo.Config] (credentials and
    service hosts) plays no part in the operations below. *)
Record DriverParameters : Type :=
  { Zone : Z; Bucket : string; BaseURL : string; RootDirectory : string }.

(** [driver]: its [client] and [bucket] handles are the [World]. *)
Record driver : Type := { params : DriverParameters }.

(** [New] (lines 104-128): the root directory loses its trailing
    slashes, the base URL gets one. *)
Definition New (p : DriverParameters) : driver :=
  {| params :=
       {| Zone := Zone p;
          Bucket := Bucket p;
          BaseURL := if GoStrings.HasSuffix (BaseURL p) "/" then BaseURL p
                     else BaseURL p +:+ "/";
          RootDirectory := GoStrings.TrimRight (RootDirectory p) "/" |} |}.

(** [getKey] (lines 513-515). *)
Definition getKey (d : driver) (path : string) : string :=
  GoStrings.TrimLeft (RootDirectory (params d) +:+ path) "/".

(** [isKeyNotExists] (lines 517-522). *)
Definition isKeyNotExists (err : error) : bool :=
  match err with
  | ErrorInfo code _ => code =? 612
  | _ => false
  end.

(** [parseError] (lines 524-529). *)
Definition parseError (path : string) (err : option error) : option error :=
  match err with
  | Some (ErrorInfo code _) => if code =? 612 then Some (PathNotFoundError path) else err
  | _ => err
  end.

(** [storagedriver.FileInfoFields]; [ModTime] is in nanoseconds, [None]
    the zero time. *)
Record FileInfoFields : Type :=
  { Path : string; Size : Z; ModTime : option Z; IsDir : bool }.

(** [Stat] (lines 346-376). *)
Definition Stat (d : driver) (path : string) : Remote (option FileInfoFields * option error) :=
  r <~ bucket_List (getKey d path) "" "" 1 ;;
  let '(items, _, _, err) := r in
  match (match err with
         | Some e => if decide (e = EOF) then None else Some e
         | None => None
         end) with
  | Some e => ret (None, Some e)
  | None =>
      match items with
      | [] => ret (None, Some (PathNotFoundError path))
      | item :: _ =>
          let isDir := negb (String.eqb (getKey d path) (kodo.Key item)) in
          ret (Some {| Path := path;
                       Size := if isDir then 0 else kodo.Fsize item;
                       ModTime := if isDir then None
                                  else Some (Int64.mul (kodo.PutTime item) 100);
                       IsDir := isDir |}, None)
      end
  end.

(** [PutContent] (lines 162-166). *)
Definition PutContent (d : driver) (path : string) (content : list byte) : Remote (option error) :=
  bucket_Put (getKey d path) content.

(** [d.client.MakePrivateUrl]: the signature appended to the URL is left
    out, the download model resolves the key from the URL itself. *)
Definition MakePrivateUrl (baseURL : string) (expires : Z) : string := baseURL.

(** [ReadStream] (lines 171-206).  The reader handed back is modelled by
    the bytes it yields. *)
Definition ReadStream (d : driver) (path : string) (offset : Z)
  : Remote (option (list byte) * option error) :=
  r <~ bucket_Stat (getKey d path) ;;
  let '(stat, err) := r in
  match err with
  | Some _ => ret (None, parseError path err)
  | None =>
      if offset >=? kodo.EntryFsize stat then ret (Some [], None)
      else
        let baseURL := BaseURL (params d) +:+ getKey d path in
        let url := MakePrivateUrl baseURL defaultExpiry in
        (* http.NewRequest *)
        f <~ attempt ;;
        match f with
        | Some e => ret (None, Some e)
        | None =>
            let req := {| Method := "GET"; URL := url;
                          Range := if offset >? 0 then Some offset else None |} in
            r <~ client_Do req ;;
            match r with
            | (_, Some e) => ret (None, Some e)
            | (None, None) => ret (None, None)
            | (Some resp, None) =>
                if StatusCode resp =? StatusNotFound
                then ret (None, Some (PathNotFoundError path))
                else ret (Some (Body resp), None)
            end
        end
  end.

(** [GetContent] (lines 145-158). *)
Definition GetContent (d : driver) (path : string) : Remote (option (list byte) * option error) :=
  r <~ ReadStream d path 0 ;;
  match r with
  | (_, Some e) => ret (None, Some e)
  | (rc, None) =>
      (* ioutil.ReadAll *)
      f <~ attempt ;;
      match f with
      | Some e => ret (None, Some e)
      | None => ret (rc, None)
      end
  end.

(** [stat.Size()] of the [FileInfo] that [Stat] returned. *)
Definition stat_Size (stat : option FileInfoFields) : Z :=
  match stat with
  | Some fi => Size fi
  | None => 0
  end.

(** The part sequence [WriteStream] builds when the lookup found
    something (lines 257-329): [path] is the key, [written] the number of
    bytes buffered, [size] is [stat.Size()], [tmpF] the buffered bytes. *)
Definition WriteStream_parts (path : string) (offset written size : Z) (tmpF : list byte)
  : list qiniurs.Part :=
  if offset =? 0 then
    [LocalBytes tmpF]
      ++ (if written <? size then [RemoteRange path written (-1)] else [])
  else if offset =? size then
    [RemoteRange path 0 (-1); LocalBytes tmpF]
  else if offset <? size then
    let appendSize := Int64.add written offset in
    [RemoteRange path 0 offset; LocalBytes tmpF]
      ++ (if appendSize <? size then [RemoteRange path appendSize (-1)] else [])
  else if offset >? size then
    let zeroBytes := replicate (Z.to_nat (Int64.sub offset size)) Byte.x00 in
    [RemoteRange path 0 (-1); LocalBytes zeroBytes; LocalBytes tmpF]
  else [].

(** [WriteStream] (lines 212-342).  [reader] holds the bytes the incoming
    stream yields; creating the scratch file, copying the stream into it
    and rewinding it are external calls that may fail.  The upload token
    and the removal of the scratch file leave no mark on the bucket and
    are left out. *)
Definition WriteStream (d : driver) (path : string) (offset : Z) (reader : list byte)
  : Remote (Z * option error) :=
  let pathNotFoundErr := PathNotFoundError path in
  r <~ Stat d path ;;
  let '(stat, err) := r in
  match (match err with
         | Some e =>
             if String.eqb (Error e) (Error pathNotFoundErr) then inr true else inl e
         | None => inr false
         end) with
  | inl e => ret (0, Some e)
  | inr writeWholeFile =>
      let path := getKey d path in
      (* ioutil.TempFile *)
      f <~ attempt ;;
      match f with
      | Some e => ret (0, Some e)
      | None =>
          (* io.Copy *)
          f <~ attempt ;;
          match f with
          | Some e => ret (0, Some e)
          | None =>
              let tmpF := reader in
              let written := Z.of_nat (length reader) in
              (* tmpF.Seek *)
              f <~ attempt ;;
              match f with
              | Some e => ret (0, Some e)
              | None =>
                  if negb writeWholeFile then
                    let parts := WriteStream_parts path offset written (stat_Size stat) tmpF in
                    err <~ qiniurs_PutParts path parts ;;
                    match err with
                    | Some e => ret (0, Some e)
                    | None => ret (written, None)
                    end
                  else
                    err <~ bucket_PutFile path tmpF ;;
                    match err with
                    | Some e => ret (0, Some e)
                    | None => ret (written, None)
                    end
              end
          end
      end
  end.

(** [Move] (lines 433-449). *)
Definition Move (d : driver) (sourcePath destPath : string) : Remote (option error) :=
  r <~ bucket_Stat (getKey d sourcePath) ;;
  match r.2 with
  | Some _ => ret (parseError sourcePath r.2)
  | None =>
      err <~ bucket_Delete (getKey d destPath) ;;
      match (match err with
             | Some e => if isKeyNotExists e then None else Some e
             | None => None
             end) with
      | Some e => ret (Some e)
      | None =>
          err <~ bucket_Move (getKey d sourcePath) (getKey d destPath) ;;
          ret (parseError sourcePath err)
      end
  end.

(** How a call that loops or indexes ends: with a result, with a Go
    panic, or still running when the iterations allowed are used up. *)
Inductive Outcome (A : Type) : Type :=
| Returns (a : A) (w : World)
| Panics (w : World)
| OutOfFuel.
Arguments Returns {A} a w.
Arguments Panics {A} w.
Arguments OutOfFuel {A}.

(** The inner loop of [Delete] (lines 476-484). *)
Fixpoint Delete_items (items : list kodo.ListItem) : Remote (option error) :=
  match items with
  | [] => ret None
  | item :: items' =>
      err <~ bucket_Delete (kodo.Key item) ;;
      match err with
      | Some e => if isKeyNotExists e then Delete_items items' else ret (Some e)
      | None => Delete_items items'
      end
  end.

(** The outer loop of [Delete] (lines 462-489); [cnt] is a Go [int]. *)
Fixpoint Delete_loop (fuel : nat) (d : driver) (path marker : string) (cnt : Z)
    (w : World) : Outcome (option error) :=
  match fuel with
  | O => OutOfFuel
  | S fuel' =>
      let '(items, _, marker, err, w) := bucket_List (getKey d path) "" marker listMax w in
      match (match err with
             | Some e => if decide (e = EOF) then None else Some e
             | None => None
             end) with
      | Some e => Returns (Some e) w
      | None =>
          let cnt := Int64.add cnt (Z.of_nat (length items)) in
          if cnt =? 0 then Returns (Some (PathNotFoundError path)) w
          else
            let (err, w) := Delete_items items w in
            match err with
            | Some e => Returns (Some e) w
            | None =>
                if String.eqb marker "" then Returns None w
                else Delete_loop fuel' d path marker cnt w
            end
      end
  end.

(** [Delete] (lines 452-492). *)
Definition Delete (fuel : nat) (d : driver) (path : string) (w : World)
  : Outcome (option error) :=
  Delete_loop fuel d path "" 0 w.

(** The loop of [List] (lines 404-424). *)
Fixpoint List_loop (fuel : nat) (d : driver) (path rootPrefix marker : string)
    (files directories : list string) (w : World)
  : Outcome (list string * option error) :=
  match fuel with
  | O => OutOfFuel
  | S fuel' =>
      let '(items, prefixes, marker, err, w) :=
        bucket_List (getKey d path) "/" marker listMax w in
      match (match err with
             | Some e => if decide (e = EOF) then None else Some e
             | None => None
             end) with
      | Some e => Returns ([], Some e) w
      | None =>
          let files :=
            files
              ++ ((fun item => GoStrings.Replace (kodo.Key item) (getKey d "") rootPrefix)
                    <$> items) in
          let directories :=
            directories
              ++ ((fun prefix =>
                     GoStrings.Replace (GoStrings.TrimSuffix prefix "/") (getKey d "") rootPrefix)
                    <$> prefixes) in
          if String.eqb marker "" then Returns (files ++ directories, None) w
          else List_loop fuel' d path rootPrefix marker files directories w
      end
  end.

(** [List] (lines 380-427). *)
Definition List (fuel : nat) (d : driver) (path : string) (w : World)
  : Outcome (list string * option error) :=
  match (if String.eqb path "/" then Some path
         else match GoStrings.last_byte path with
              | None => None
              | Some c => if Ascii.eqb c "/" then Some path else Some (path +:+ "/")
              end) with
  | None => Panics w
  | Some path =>
      let rootPrefix := if String.eqb (getKey d "") "" then "/" else "" in
      List_loop fuel d path rootPrefix "" [] [] w
  end.

(** [Name] (lines 139-141). *)
Definition Name (d : driver) : string := driverName.

(** A value of Go's [interface{}] as [FromParameters] and [URLFor] look
    at it, by type assertion to [int], [string], [[]string] or
    [time.Time] (held as the Unix seconds [URLFor] reads of it); [VOther]
    is a value of any other dynamic type. *)
Inductive any : Type :=
| VInt (n : Z)
| VString (s : string)
| VStrings (l : list string)
| VTime (unix : Z)
| VOther.

(** The type assertions [v.(int)], [v.(string)] and [v.([]string)] in
    their two-result form: the zero value and [false] when the entry is
    missing or holds a value of another type. *)
Definition assert_int (v : option any) : Z * bool :=
  match v with
  | Some (VInt n) => (n, true)
  | _ => (0, false)
  end.

Definition assert_string (v : option any) : string * bool :=
  match v with
  | Some (VString s) => (s, true)
  | _ => (""%string, false)
  end.

Definition assert_strings (v : option any) : list string * bool :=
  match v with
  | Some (VStrings l) => (l, true)
  | _ => ([], false)
  end.

(** [kodo.Config] of the SDK, which [DriverParameters] embeds; the fields
    are those [FromParameters] sets (lines 76-91).  [kodo.New] receives
    it. *)
Record Config : Type :=
  { AccessKey : string;
    SecretKey : string;
    RSHost : string;
    RSFHost : string;
    IoHost : string;
    UpHosts : list string }.

(** [FromParameters] (lines 58-94): the driver [New] builds and the
    configuration its client is made from, or the error of the first
    required parameter that is missing. *)
Definition FromParameters (parameters : gmap string any)
  : option (driver * Config) * option error :=
  let zone := (assert_int (parameters !! "zone")).1 in
  let (bucket, ok) := assert_string (parameters !! "bucket") in
  if negb ok || String.eqb bucket "" then
    (None, Some (errorString "No bucket parameter provided"))
  else
    let (baseurl, ok) := assert_string (parameters !! "baseurl") in
    if negb ok || String.eqb baseurl "" then
      (None, Some (errorString "No baseurl parameter provided"))
    else
      let (accesskey, ok) := assert_string (parameters !! "accesskey") in
      if negb ok || String.eqb accesskey "" then
        (None, Some (errorString "No accesskey parameter provided"))
      else
        let (secretkey, ok) := assert_string (parameters !! "secretkey") in
        if negb ok || String.eqb secretkey "" then
          (None, Some (errorString "No secretkey parameter provided"))
        else
          let rootdirectory := (assert_string (parameters !! "rootdirectory")).1 in
          let config :=
            {| AccessKey := accesskey;
               SecretKey := secretkey;
               RSHost := (assert_string (parameters !! "rshost")).1;
               RSFHost := (assert_string (parameters !! "rsfhost")).1;
               IoHost := (assert_string (parameters !! "iohost")).1;
               UpHosts := (assert_strings (parameters !! "uphosts")).1 |} in
          (Some (New {| Zone := zone; Bucket := bucket; BaseURL := baseurl;
                        RootDirectory := rootdirectory |}, config), None).

(** Go's conversion [uint32(x)] of an [int64]. *)
Definition to_uint32 (x : Z) : Z := x mod 2 ^ 32.

(** The [Expires] field of the policy [URLFor] signs with (lines
    500-506); [unixNow] is the reading [time.Now().Unix()] of the clock. *)
Definition URLFor_expires (options : gmap string any) (unixNow : Z) : Z :=
  match options !! "expiry" with
  | Some (VTime expiresTime) =>
      let expires := Int64.sub expiresTime unixNow in
      if expires >? 0 then to_uint32 expires else defaultExpiry
  | _ => defaultExpiry
  end.

(** [URLFor] (lines 498-511). *)
Definition URLFor (d : driver) (path : string) (options : gmap string any) (unixNow : Z)
  : string * option error :=
  let baseURL := BaseURL (params d) +:+ getKey d path in
  (MakePrivateUrl baseURL (URLFor_expires options unixNow), None).

(** ** Vocabulary of the statements *)

(** What [Stat] reports for a stored object. *)
Definition file_info (path : string) (o : Object) : FileInfoFields :=
  {| Path := path;
     Size := Z.of_nat (length (content o));
     ModTime := Some (Int64.mul (putTime o) 100);
     IsDir := false |}.

(** Writing [data] over [old] from position [n] on. *)
Definition splice (old data : list byte) (n : nat) : list byte :=
  take n old ++ data ++ drop (n + length data) old.

(** The world after a range write: the lookup and the compose request
    are the two remote calls, and the composed bytes replace the object. *)
Definition composed (d : driver) (path : string) (parts : list qiniurs.Part)
    (bytes : list byte) (w : World) : World :=
  set_objects
    (<[getKey d path := {| content := bytes; putTime := now w |}]> (objects w))
    (log (EvPutParts (getKey d path) parts) (log (EvList (getKey d path) "" "" 1) w)).

(** The world after a whole-object upload: the lookup and the upload are
    the two remote calls, and the object holds the uploaded bytes. *)
Definition uploaded (d : driver) (path : string) (bytes : list byte) (w : World) : World :=
  set_objects
    (<[getKey d path := {| content := bytes; putTime := now w |}]> (objects w))
    (log (EvPutFile (getKey d path) bytes) (log (EvList (getKey d path) "" "" 1) w)).

(** The marker of a page of at most [n] of the objects [kos]. *)
Definition page_marker (n : nat) (lastk : string) (kos : list (string * Object)) : string :=
  if decide (length kos <= n)%nat then ""
  else encode_marker (from_option fst lastk (last (take n kos))).

Definition delete_keys (ks : list string) (m : gmap string Object) : gmap string Object :=
  foldl (fun m k => delete k m) m ks.

(** The world after the objects [ks] were deleted one by one. *)
Definition deleted (ks : list string) (w : World) : World :=
  {| objects := delete_keys ks (objects w);
     script := script w;
     trace := trace w ++ (EvDelete <$> ks);
     now := now w;
     domain := domain w |}.

(** What is stored after every object the listing reports was deleted. *)
Definition swept (m : gmap string Object) (prefix marker : string) (k : string)
  : option Object :=
  if decide (String.prefix prefix k = true ∧ after_marker marker k) then None
  else m !! k.

(** The entry [List] makes of a listed key, and of a common prefix. *)
Definition file_entry (d : driver) (rootPrefix k : string) : string :=
  GoStrings.Replace k (getKey d "") rootPrefix.

Definition directory_entry (d : driver) (rootPrefix cp : string) : string :=
  GoStrings.Replace (GoStrings.TrimSuffix cp "/") (getKey d "") rootPrefix.

(** Modelled from the spec: the host's path syntax (a leading [/], no
    trailing [/], no empty segment); its regular expression is declared
    outside the driver's file.  [segments slash s] reads [s] knowing
    whether the byte before it was a [/]. *)
Fixpoint segments (slash : bool) (s : string) : bool :=
  match s with
  | EmptyString => negb slash
  | String c s' =>
      if Ascii.eqb c "/" then (if slash then false else segments true s')
      else segments false s'
  end.

Definition path_ok (p : string) : bool :=
  match p with
  | String c s => Ascii.eqb c "/" && segments true s
  | EmptyString => false
  end.

(** What the host may be shown for a stored key: a path with a leading
    [/] and no trailing [/] whose key, put back under the root, is a
    stored key or the directory of one. *)
Definition listed_path (d : driver) (w : World) (e : string) : Prop :=
  GoStrings.HasPrefix e "/" = true
  ∧ GoStrings.last_byte e <> Some "/"%char
  ∧ exists k, is_Some (objects w !! k)
              ∧ (k = getKey d e ∨ String.prefix (getKey d e +:+ "/") k = true).

(** A required parameter is provided when it holds a string that is not
    empty. *)
Definition provided (parameters : gmap string any) (k : string) : Prop :=
  exists s, parameters !! k = Some (VString s) ∧ s <> ""%string.

(** The calls that only read the bucket. *)
Definition is_read (ev : event) : bool :=
  match ev with
  | EvList _ _ _ _ | EvStat _ | EvDo _ => true
  | _ => false
  end.

(** [w'] is [w] after calls that only read: the objects are the same. *)
Definition read_only (w w' : World) : Prop :=
  objects w' = objects w
  ∧ exists evs, trace w' = trace w ++ evs ∧ Forall (fun ev => is_read ev = true) evs.

(** What [Stat] reports for a directory. *)
Definition directory_info (path : string) : FileInfoFields :=
  {| Path := path; Size := 0; ModTime := None; IsDir := true |}.

(** Writing [data] at position [n] of [old], the gap past the end of
    [old] filled with zero bytes. *)
Definition write_at (old data : list byte) (n : nat) : list byte :=
  take n (old ++ replicate (n - length old) Byte.x00) ++ data ++ drop (n + length data) old.

(** A string without a separator. *)
Fixpoint slash_free (s : string) : bool :=
  match s with
  | EmptyString => true
  | String c s' => negb (Ascii.eqb c "/") && slash_free s'
  end.

(** The path [List] lists under: the path given, ended with a [/]
    (lines 382-384). *)
Definition listing_path (path : string) : string :=
  if String.eqb path "/" then path
  else match GoStrings.last_byte path with
       | Some c => if Ascii.eqb c "/" then path else path +:+ "/"
       | None => path
       end.

(** What [List] puts in place of the root's key (lines 389-392). *)
Definition root_prefix (d : driver) : string :=
  if String.eqb (getKey d "") "" then "/"%string else ""%string.

(** The entry [e] stands for the stored key [k]: it is the path of [k],
    or of a directory [k] lies under. *)
Definition stands_for (d : driver) (e k : string) : Prop :=
  k = getKey d e ∨ String.prefix (getKey d e +:+ "/") k = true.

(** ** Sample data *)

Definition bytes (s : string) : list byte := String.list_byte_of_string s.

Definition sample_object (s : string) : Object := {| content := bytes s; putTime := 7 |}.

(** A driver rooted at [/root]. *)
Definition sample_driver : driver :=
  New {| Zone := 0; Bucket := "registry";
         BaseURL := "http://cdn.example"; RootDirectory := "/root/" |}.

(** A bucket with the given objects, no failure ahead and nothing called yet. *)
Definition sample_world (m : gmap string Object) : World :=
  {| objects := m; script := []; trace := []; now := 9; domain := "http://cdn.example/" |}.

(** The bucket of the listing and deleting samples. *)
Definition sample_tree : gmap string Object :=
  <["root/a/b" := sample_object "b"]>
    (<["root/a/c/d" := sample_object "d"]>
       (<["root/foo" := sample_object "foo"]> ∅)).

(** The drivers of [TestEmptyRootList]: one under a root directory, one
    with an empty root directory, one with the root directory [/]. *)
Definition rooted_driver : driver :=
  New {| Zone := 0; Bucket := "registry";
         BaseURL := "http://cdn.example/"; RootDirectory := "/tmp/driver-1" |}.
Definition empty_root_driver : driver :=
  New {| Zone := 0; Bucket := "registry";
         BaseURL := "http://cdn.example/"; RootDirectory := "" |}.
Definition slash_root_driver : driver :=
  New {| Zone := 0; Bucket := "registry";
         BaseURL := "http://cdn.example/"; RootDirectory := "/" |}.

(** * Properties *)

(** ** Integers *)

Lemma Int64_wrap_in_range z : Int64.in_range z -> Int64.wrap z = z.
Proof.
  unfold Int64.in_range, Int64.min_int, Int64.max_int, Int64.wrap. intros Hz.
  rewrite Z.mod_small by lia. lia.
Qed.

Lemma Int64_add_exact a b : Int64.in_range (a + b) -> Int64.add a b = a + b.
Proof. apply Int64_wrap_in_range. Qed.

Lemma Int64_sub_exact a b : Int64.in_range (a - b) -> Int64.sub a b = a - b.
Proof. apply Int64_wrap_in_range. Qed.

(** ** Strings *)

Example TrimLeft_ex : GoStrings.TrimLeft "//tmp/x/" "/" = "tmp/x/".
Proof. reflexivity. Qed.
Example TrimRight_ex : GoStrings.TrimRight "/tmp/x//" "/" = "/tmp/x".
Proof. reflexivity. Qed.
Example TrimRight_all_ex : GoStrings.TrimRight "///" "/" = "".
Proof. reflexivity. Qed.
Example TrimSuffix_ex : GoStrings.TrimSuffix "a/b/" "/" = "a/b".
Proof. reflexivity. Qed.
Example Replace_ex : GoStrings.Replace "tmp/d/test" "tmp/d" "" = "/test".
Proof. reflexivity. Qed.
Example Replace_empty_ex : GoStrings.Replace "test" "" "/" = "/test".
Proof. reflexivity. Qed.

Lemma app_cons c p s : String c p +:+ s = String c (p +:+ s).
Proof. reflexivity. Qed.

Lemma app_empty_l s : "" +:+ s = s.
Proof. reflexivity. Qed.

Lemma prefix_refl s : String.prefix s s = true.
Proof.
  induction s as [|c s IH]; simpl; [done|].
  destruct (ascii_dec c c); [done | congruence].
Qed.

Lemma prefix_app p s : String.prefix p (p +:+ s) = true.
Proof.
  induction p as [|c p IH]; [by destruct s|].
  rewrite app_cons. simpl. destruct (ascii_dec c c); [done | congruence].
Qed.

Lemma prefix_split p k :
  String.prefix p k = true -> k = p +:+ GoStrings.drop (String.length p) k.
Proof.
  revert k. induction p as [|c p IH]; intros k; [done|].
  destruct k as [|c' k]; simpl; [done|].
  destruct (ascii_dec c c'); [|done]. intros Hp. subst c'.
  rewrite app_cons. f_equal. by apply IH.
Qed.

Lemma drop_app p s : GoStrings.drop (String.length p) (p +:+ s) = s.
Proof. induction p as [|c p IH]; [by destruct s | by rewrite app_cons]. Qed.

Lemma app_empty_r s : s +:+ "" = s.
Proof. induction s as [|c s IH]; [done | by rewrite app_cons, IH]. Qed.

Lemma app_assoc_str a b c : (a +:+ b) +:+ c = a +:+ (b +:+ c).
Proof. induction a as [|x a IH]; [done | by rewrite !app_cons, IH]. Qed.

Lemma ascii_compare_refl c : Ascii.compare c c = Eq.
Proof. unfold Ascii.compare. apply N.compare_refl. Qed.

(** A string is no greater than any string it is a prefix of. *)
Lemma prefix_le p k : String.prefix p k = true -> String.le p k.
Proof.
  unfold String.le, String.leb. revert k.
  induction p as [|c p IH]; intros [|c' k]; simpl; try done.
  destruct (ascii_dec c c'); [|done]. subst c'. intros Hp.
  rewrite ascii_compare_refl. by apply IH.
Qed.

(** ** The listing of the bucket *)

#[global] Instance key_le_trans : Transitive key_le.
Proof. intros a b c. unfold key_le. apply transitivity. Qed.

#[global] Instance key_le_total : Total key_le.
Proof. intros a b. unfold key_le. apply total, _. Qed.

Lemma StronglySorted_filter {A} (R : relation A) (P : A -> Prop)
    `{forall x, Decision (P x)} (l : list A) :
  StronglySorted R l -> StronglySorted R (filter P l).
Proof.
  induction 1 as [|x l Hl IH Hx]; [constructor|].
  rewrite filter_cons. destruct (decide (P x)); [|done].
  constructor; [done|].
  apply Forall_forall. intros y [_ Hy]%list_elem_of_filter.
  by eapply Forall_forall in Hx.
Qed.

Lemma elem_of_sorted_objects m k o :
  (k, o) ∈ sorted_objects m <-> m !! k = Some o.
Proof.
  unfold sorted_objects. rewrite merge_sort_Permutation.
  apply elem_of_map_to_list.
Qed.

Lemma sorted_objects_sorted m : StronglySorted key_le (sorted_objects m).
Proof. apply StronglySorted_merge_sort; apply _. Qed.

Lemma sorted_objects_NoDup m : NoDup (sorted_objects m).*1.
Proof.
  unfold sorted_objects. rewrite merge_sort_Permutation.
  apply NoDup_fst_map_to_list.
Qed.

Lemma elem_of_matching m prefix marker k o :
  (k, o) ∈ matching m prefix marker
  <-> m !! k = Some o ∧ String.prefix prefix k = true ∧ after_marker marker k.
Proof.
  unfold matching. rewrite list_elem_of_filter, elem_of_sorted_objects.
  unfold listed, GoStrings.HasPrefix. simpl. tauto.
Qed.

Lemma matching_sorted m prefix marker :
  StronglySorted key_le (matching m prefix marker).
Proof. apply StronglySorted_filter, sorted_objects_sorted. Qed.

(** The exact key, when stored, is the first object a listing with that
    key as prefix reports. *)
Lemma matching_exact_first m key o :
  m !! key = Some o ->
  exists rest, matching m key "" = (key, o) :: rest.
Proof.
  intros Hm.
  assert (Hin : (key, o) ∈ matching m key "").
  { apply elem_of_matching. split_and!; [done | apply prefix_refl | by left]. }
  pose proof (matching_sorted m key "") as Hs.
  destruct (matching m key "") as [|[k' o'] rest] eqn:E; [by apply elem_of_nil in Hin|].
  exists rest. f_equal.
  assert (Hk' : (k', o') ∈ matching m key "") by (rewrite E; left).
  apply elem_of_matching in Hk' as (Hm' & Hp & _).
  assert (k' = key) as ->.
  { apply (anti_symm String.le).
    - apply elem_of_cons in Hin as [Heq | Hin]; [by simplify_eq|].
      apply StronglySorted_inv in Hs as [_ Hall].
      eapply Forall_forall in Hall; [|done]. done.
    - by apply prefix_le. }
  congruence.
Qed.

(** ** The lookup *)

Lemma Stat_stored d path o w :
  script w = [] ->
  objects w !! getKey d path = Some o ->
  Stat d path w
  = ((Some (file_info path o), None), log (EvList (getKey d path) "" "" 1) w).
Proof.
  intros Hs Hm. destruct w as [m s t n dom]. simpl in *. subst s.
  destruct (matching_exact_first _ _ _ Hm) as [rest E].
  unfold Stat, bind, bucket_List, bind, emit, attempt, world, ret, log. simpl.
  rewrite E. simpl.
  destruct (scan (getKey d path) "" 0 None (getKey d path) rest) as [[items prefixes] marker].
  assert (Hself : String.eqb (getKey d path) (getKey d path) = true)
    by apply String.eqb_refl.
  destruct (String.eqb marker ""); simpl; rewrite Hself; reflexivity.
Qed.

(** When no stored key starts with the key of the path, the lookup
    reports that the path is not found. *)
Lemma Stat_nothing d path w :
  script w = [] ->
  (forall k, is_Some (objects w !! k) -> String.prefix (getKey d path) k = false) ->
  Stat d path w
  = ((None, Some (PathNotFoundError path)), log (EvList (getKey d path) "" "" 1) w).
Proof.
  intros Hs Hno. destruct w as [m s t n dom]. simpl in *. subst s.
  assert (E : matching m (getKey d path) "" = []).
  { destruct (matching m (getKey d path) "") as [|[k o] rest] eqn:E; [done|].
    assert (Hin : (k, o) ∈ matching m (getKey d path) "") by (rewrite E; left).
    apply elem_of_matching in Hin as (Hm & Hp & _).
    rewrite Hno in Hp by eauto. done. }
  unfold Stat, bind, bucket_List, bind, emit, attempt, world, ret, log. simpl.
  rewrite E. reflexivity.
Qed.

(** ** The range write *)

Lemma part_bytes_local m bytes : part_bytes m (LocalBytes bytes) = inr bytes.
Proof. reflexivity. Qed.

Lemma part_bytes_tail m key o from :
  m !! key = Some o ->
  0 <= from <= Z.of_nat (length (content o)) ->
  part_bytes m (RemoteRange key from (-1)) = inr (drop (Z.to_nat from) (content o)).
Proof.
  intros Hm Hfrom. unfold part_bytes. simpl. rewrite Hm. simpl.
  assert ((0 <=? from) && (from <=? Z.of_nat (length (content o))) = true) as ->; [|done].
  apply andb_true_iff. split; apply Z.leb_le; lia.
Qed.

Lemma part_bytes_head m key o to :
  m !! key = Some o ->
  0 <= to <= Z.of_nat (length (content o)) ->
  part_bytes m (RemoteRange key 0 to) = inr (take (Z.to_nat to) (content o)).
Proof.
  intros Hm Hto. unfold part_bytes. simpl. rewrite Hm. simpl.
  assert ((to =? -1) = false) as -> by (apply Z.eqb_neq; lia).
  assert ((0 <=? to) && (to <=? Z.of_nat (length (content o))) = true) as ->.
  { apply andb_true_iff. split; apply Z.leb_le; lia. }
  by rewrite Z.sub_0_r.
Qed.

(** [WriteStream] on a path whose object is stored: the parts are built
    from the object's size and submitted in one compose request. *)
Lemma WriteStream_stored d path offset data o w :
  script w = [] ->
  objects w !! getKey d path = Some o ->
  WriteStream d path offset data w
  = (let key := getKey d path in
     let written := Z.of_nat (length data) in
     let parts := WriteStream_parts key offset written (Z.of_nat (length (content o))) data in
     let w' := log (EvPutParts key parts) (log (EvList key "" "" 1) w) in
     match compose (objects w) parts with
     | inl e => ((0, Some e), w')
     | inr bytes =>
         ((written, None),
          set_objects (<[key := {| content := bytes; putTime := now w |}]> (objects w)) w')
     end).
Proof.
  intros Hs Hm. unfold WriteStream, bind at 1.
  rewrite (Stat_stored d path o w Hs Hm).
  destruct w as [m s t n dom]. simpl in *. subst s.
  unfold bind, attempt, qiniurs_PutParts, bind, emit, attempt, world, store, ret, log.
  simpl. destruct (compose m _); reflexivity.
Qed.

Lemma splice_spec old data n :
  (n <= length old)%nat ->
  take n (splice old data n) = take n old
  ∧ take (length data) (drop n (splice old data n)) = data
  ∧ drop (n + length data) (splice old data n) = drop (n + length data) old.
Proof.
  intros Hn. unfold splice.
  assert (Hlen : length (take n old) = n) by (rewrite length_take; lia).
  split_and!.
  - by rewrite take_app_length'.
  - rewrite drop_app_length' by done. by rewrite take_app_length.
  - rewrite <- drop_drop. rewrite drop_app_length' by done.
    by rewrite drop_app_length.
Qed.

(** ** Pages without a delimiter *)

Lemma page_marker_nil n lastk : page_marker n lastk [] = "".
Proof. unfold page_marker. case_decide; [done | simpl in *; lia]. Qed.

Lemma page_marker_O lastk ko kos : page_marker 0 lastk (ko :: kos) = encode_marker lastk.
Proof. unfold page_marker. case_decide; [simpl in *; lia | done]. Qed.

Lemma page_marker_S n lastk ko kos :
  page_marker (S n) lastk (ko :: kos) = page_marker n ko.1 kos.
Proof.
  unfold page_marker. rewrite firstn_cons, last_cons.
  repeat case_decide; simpl in *; try lia; [done|].
  by destruct (last (take n kos)).
Qed.

Lemma scan_flat prefix n prev lastk kos :
  scan prefix "" n prev lastk kos
  = (list_item <$> take n kos, [], page_marker n lastk kos).
Proof.
  revert n prev lastk. induction kos as [|ko kos IH]; intros n prev lastk.
  - rewrite page_marker_nil. by destruct n.
  - destruct n as [|n]; cbn [scan]; unfold common_prefix; simpl String.eqb; cbv iota.
    + by rewrite page_marker_O.
    + by rewrite IH, page_marker_S.
Qed.

Lemma bucket_List_flat prefix marker limit w :
  script w = [] ->
  bucket_List prefix "" marker limit w
  = (let kos := matching (objects w) prefix marker in
     let next := page_marker (page_size limit) "" kos in
     ((list_item <$> take (page_size limit) kos, [], next,
       if String.eqb next "" then Some EOF else None),
      log (EvList prefix "" marker limit) w)).
Proof.
  intros Hs. destruct w as [m s t n dom]. simpl in *. subst s.
  unfold bucket_List, bind, emit, attempt, world, ret, log. simpl.
  by rewrite scan_flat.
Qed.

Lemma encode_marker_nonempty k : String.eqb (encode_marker k) "" = false.
Proof. reflexivity. Qed.

Lemma after_encode_marker l k :
  after_marker (encode_marker l) k <-> strict String.le l k.
Proof.
  unfold after_marker, encode_marker, decode_marker. simpl.
  split; [intros [?|?]; done | by right].
Qed.

(** ** Deleting a page *)

Lemma lookup_delete_keys ks m k :
  delete_keys ks m !! k = if decide (k ∈ ks) then None else m !! k.
Proof.
  revert m. induction ks as [|a ks IH]; intros m.
  - rewrite decide_False; [done | apply not_elem_of_nil].
  - change (delete_keys (a :: ks) m) with (delete_keys ks (delete a m)).
    rewrite IH. destruct (decide (k ∈ ks)) as [Hin|Hin].
    + rewrite decide_True; [done | by right].
    + destruct (decide (k = a)) as [->|Hne].
      * rewrite decide_True by left. apply lookup_delete_eq.
      * rewrite decide_False; [by apply lookup_delete_ne|].
        intros [?|?]%elem_of_cons; done.
Qed.

Lemma Delete_items_all kos w :
  script w = [] ->
  NoDup kos.*1 ->
  (forall k, k ∈ kos.*1 -> is_Some (objects w !! k)) ->
  Delete_items (list_item <$> kos) w = (None, deleted kos.*1 w).
Proof.
  revert w. induction kos as [|ko kos IH]; intros w Hs Hnd Hin.
  - destruct w. unfold deleted. simpl. by rewrite app_nil_r.
  - rewrite fmap_cons in Hnd, Hin. apply NoDup_cons in Hnd as [Hko Hnd].
    destruct (Hin ko.1) as [o Ho]; [left|].
    rewrite !fmap_cons. cbn [Delete_items].
    destruct w as [m s t n dom]. simpl in Hs, Hin, Ho. subst s.
    unfold bind at 1, bucket_Delete, bind, emit, attempt, world, store, ret, log,
      set_objects.
    simpl. rewrite Ho. simpl.
    rewrite IH; simpl; [| done | done |].
    + unfold deleted. simpl. by rewrite <- app_assoc.
    + intros k Hk. rewrite lookup_delete_ne; [apply Hin; by right|].
      intros <-. done.
Qed.

Lemma matching_NoDup m prefix marker : NoDup (matching m prefix marker).*1.
Proof.
  eapply sublist_NoDup; [apply sorted_objects_NoDup|].
  apply fmap_sublist, sublist_filter.
Qed.

Lemma matching_length m prefix marker :
  (length (matching m prefix marker) <= size m)%nat.
Proof.
  unfold matching. etrans; [apply length_filter|].
  unfold sorted_objects. rewrite merge_sort_Permutation.
  by rewrite length_map_to_list.
Qed.

Lemma elem_of_matching_keys m prefix marker k :
  k ∈ (matching m prefix marker).*1
  <-> is_Some (m !! k) ∧ String.prefix prefix k = true ∧ after_marker marker k.
Proof.
  split.
  - intros ([k' o] & -> & Hin)%list_elem_of_fmap_1.
    apply elem_of_matching in Hin as (? & ? & ?). eauto.
  - intros ([o Ho] & Hp & Ha).
    apply (list_elem_of_fmap_2' fst _ (k, o)); [|done].
    by apply elem_of_matching.
Qed.

(** The objects of a listing that a first page of [n] leaves out lie
    strictly after the last key of the page. *)
Lemma beyond_page m prefix marker n k o l :
  last (take n (matching m prefix marker)) = Some l ->
  (k, o) ∈ matching m prefix marker ->
  k ∉ (take n (matching m prefix marker)).*1 ->
  strict String.le l.1 k.
Proof.
  intros Hl Hin Hout.
  pose proof (matching_sorted m prefix marker) as Hs.
  rewrite <- (take_drop n (matching m prefix marker)) in Hin, Hs.
  apply elem_of_app in Hin as [Hin|Hin].
  { destruct Hout. by apply (list_elem_of_fmap_2' fst _ (k, o)). }
  apply last_Some_elem_of in Hl.
  assert (Hle : String.le l.1 k)
    by apply (StronglySorted_app_1_elem_of _ _ _ _ _ Hs Hl Hin).
  split; [done|]. intros Hge.
  assert (l.1 = k) as Heq by (by apply (anti_symm String.le)).
  destruct Hout. rewrite <- Heq. by apply list_elem_of_fmap_2.
Qed.

Lemma after_marker_trans marker l k :
  after_marker marker l -> strict String.le l k -> after_marker marker k.
Proof.
  intros [->|Hl] Hk; [by left|]. right. by etrans.
Qed.

(** ** The delete loop *)

Lemma page_size_listMax : page_size listMax = 1000%nat.
Proof. reflexivity. Qed.

Lemma Delete_loop_sweeps d path fuel marker cnt w :
  script w = [] ->
  (length (matching (objects w) (getKey d path) marker) < fuel)%nat ->
  0 <= cnt ->
  cnt + Z.of_nat (length (matching (objects w) (getKey d path) marker)) <= Int64.max_int ->
  (cnt = 0 -> matching (objects w) (getKey d path) marker <> []) ->
  exists w',
    Delete_loop fuel d path marker cnt w = Returns None w'
    ∧ forall k, objects w' !! k = swept (objects w) (getKey d path) marker k.
Proof.
  revert marker cnt w. induction fuel as [|fuel IH]; intros marker cnt w Hs Hfuel Hcnt Hmax Hne;
    [lia|].
  set (key := getKey d path) in *.
  set (kos := matching (objects w) key marker) in *.
  set (page := take 1000 kos).
  cbn [Delete_loop]. fold key. rewrite (bucket_List_flat key marker listMax w Hs).
  cbv zeta. rewrite page_size_listMax. fold kos page.
  set (next := page_marker 1000 "" kos).
  set (w1 := log (EvList key "" marker listMax) w).
  assert (Herr : match (if String.eqb next "" then Some EOF else None) with
                 | Some e => if decide (e = EOF) then None else Some e
                 | None => None
                 end = None) by (by destruct (String.eqb next "")).
  rewrite Herr. clear Herr. rewrite length_fmap.
  assert (Hpage : (length page <= length kos)%nat)
    by (subst page; rewrite length_take; lia).
  rewrite Int64_add_exact
    by (unfold Int64.in_range, Int64.min_int, Int64.max_int in *; lia).
  assert (Hpos : (cnt + Z.of_nat (length page) =? 0) = false).
  { apply Z.eqb_neq. destruct (decide (cnt = 0)) as [->|]; [|lia].
    specialize (Hne eq_refl). subst page. rewrite length_take.
    destruct kos; [done | rewrite length_cons; lia]. }
  rewrite Hpos.
  assert (Hsub : forall k, k ∈ page.*1 -> k ∈ kos.*1).
  { intros k Hk. eapply elem_of_sublist; [done|]. apply fmap_sublist, sublist_take. }
  rewrite (Delete_items_all page w1); [| by destruct w | |].
  2:{ eapply sublist_NoDup; [apply (matching_NoDup (objects w) key marker)|].
      apply fmap_sublist, sublist_take. }
  2:{ intros k Hk%Hsub. apply elem_of_matching_keys in Hk as (? & _).
      by destruct w. }
  assert (Hobj : objects (deleted page.*1 w1) = delete_keys page.*1 (objects w))
    by (by destruct w).
  unfold next, page_marker. destruct (decide (length kos <= 1000)%nat) as [Hall|Hmore].
  - (* the listing is complete *)
    simpl. eexists. split; [done|]. intros k. rewrite Hobj, lookup_delete_keys.
    subst page. rewrite take_ge by done. unfold swept.
    destruct (decide (k ∈ kos.*1)) as [Hin|Hout].
    + apply elem_of_matching_keys in Hin as (_ & ? & ?). by rewrite decide_True.
    + case_decide as Hl; [|done]. destruct Hl as [? ?].
      destruct (objects w !! k) as [o|] eqn:Ho; [|done].
      destruct Hout. apply elem_of_matching_keys. eauto.
  - (* another page follows *)
    fold page. destruct (last page) as [l|] eqn:Hl.
    2:{ apply last_None in Hl. subst page.
        apply (f_equal length) in Hl. rewrite length_take in Hl.
        change (length (@nil (string * Object))) with 0%nat in Hl. lia. }
    simpl from_option. rewrite encode_marker_nonempty.
    assert (Hlin : l ∈ kos).
    { apply last_Some_elem_of in Hl. eapply elem_of_sublist; [done|]. apply sublist_take. }
    assert (Hlafter : after_marker marker l.1).
    { destruct l as [lk lo]. by apply elem_of_matching in Hlin as (_ & _ & ?). }
    set (w2 := deleted page.*1 w1) in *.
    assert (Hrest : forall x, x ∈ matching (objects w2) key (encode_marker l.1) ->
                              x ∈ drop 1000 kos).
    { intros [k o] (Ho & Hp & Ha)%elem_of_matching.
      rewrite Hobj, lookup_delete_keys in Ho. case_decide as Hk; [done|].
      apply after_encode_marker in Ha.
      assert (Hin : (k, o) ∈ kos).
      { apply elem_of_matching. split_and!; [done | done |].
        by apply (after_marker_trans _ l.1). }
      rewrite <- (take_drop 1000 kos) in Hin.
      apply elem_of_app in Hin as [Hin|Hin]; [|done].
      destruct Hk. by apply (list_elem_of_fmap_2' fst _ (k, o)). }
    assert (Hlen : (length (matching (objects w2) key (encode_marker l.1))
                    <= length (drop 1000 kos))%nat).
    { apply submseteq_length, NoDup_submseteq; [|done].
      eapply NoDup_fmap_1, matching_NoDup. }
    rewrite length_drop in Hlen.
    assert (Hp1000 : length page = 1000%nat) by (subst page; rewrite length_take; lia).
    destruct (IH (encode_marker l.1) (cnt + Z.of_nat (length page)) w2)
      as (w' & Hrun & Hlook); [by destruct w | lia | lia | lia | lia |].
    exists w'. split; [done|]. intros k. rewrite Hlook. unfold swept.
    rewrite Hobj, lookup_delete_keys.
    destruct (decide (String.prefix key k = true ∧ after_marker (encode_marker l.1) k))
      as [[Hp Ha]|Hno].
    + apply after_encode_marker in Ha. rewrite decide_True; [done|].
      split; [done|]. by apply (after_marker_trans _ l.1).
    + destruct (decide (k ∈ page.*1)) as [Hin|Hout].
      * apply Hsub, elem_of_matching_keys in Hin as (_ & ? & ?).
        by rewrite decide_True.
      * case_decide as Hk; [|done]. destruct Hk as [Hp Ha].
        destruct (objects w !! k) as [o|] eqn:Ho; [|done].
        destruct Hno. split; [done|]. apply after_encode_marker.
        apply (beyond_page (objects w) key marker 1000 k o l); [done | | done].
        by apply elem_of_matching.
Qed.

(** ** Pages with a delimiter *)

Lemma marker_step (ko : string * Object) kos marker lastk :
  (marker = "" ∨ exists l, marker = encode_marker l ∧ (l = ko.1 ∨ l ∈ kos.*1)) ->
  marker = "" ∨ exists l, marker = encode_marker l ∧ (l = lastk ∨ l ∈ (ko :: kos).*1).
Proof.
  intros [->|(l & -> & Hl)]; [by left|]. right. exists l. split; [done|].
  right. rewrite fmap_cons. destruct Hl as [->|Hl]; [left | by right].
Qed.

(** Every item of a page is a listed object outside any common prefix,
    every prefix is the common prefix of a listed object, and a marker
    names the last key met. *)
Lemma scan_sound prefix delimiter n prev lastk kos :
  let '(items, prefixes, marker) := scan prefix delimiter n prev lastk kos in
  (forall item, item ∈ items ->
     exists ko, ko ∈ kos ∧ item = list_item ko
                ∧ common_prefix prefix delimiter ko.1 = None)
  ∧ (forall cp, cp ∈ prefixes ->
       exists ko, ko ∈ kos ∧ common_prefix prefix delimiter ko.1 = Some cp)
  ∧ (marker = "" ∨ exists l, marker = encode_marker l ∧ (l = lastk ∨ l ∈ kos.*1)).
Proof.
  revert n prev lastk. induction kos as [|ko kos IH]; intros n prev lastk.
  - simpl. split_and!; [by intros ? ?%elem_of_nil | by intros ? ?%elem_of_nil | by left].
  - cbn [scan]. destruct (common_prefix prefix delimiter ko.1) as [cp|] eqn:Hcp.
    + destruct (decide (prev = Some cp)) as [->|Hprev].
      * specialize (IH n (Some cp) ko.1).
        destruct (scan prefix delimiter n (Some cp) ko.1 kos) as [[items prefixes] marker].
        destruct IH as (Hi & Hp & Hm). split_and!.
        -- intros item (ko' & ? & ?)%Hi. exists ko'. split; [by right | done].
        -- intros c (ko' & ? & ?)%Hp. exists ko'. split; [by right | done].
        -- by apply marker_step.
      * destruct n as [|n].
        { split_and!; [by intros ? ?%elem_of_nil | by intros ? ?%elem_of_nil |].
          right. exists lastk. split; [done | by left]. }
        specialize (IH n (Some cp) ko.1).
        destruct (scan prefix delimiter n (Some cp) ko.1 kos) as [[items prefixes] marker].
        destruct IH as (Hi & Hp & Hm). split_and!.
        -- intros item (ko' & ? & ?)%Hi. exists ko'. split; [by right | done].
        -- intros c [->|(ko' & ? & ?)%Hp]%elem_of_cons.
           ++ exists ko. split; [left | done].
           ++ exists ko'. split; [by right | done].
        -- by apply marker_step.
    + destruct n as [|n].
      { split_and!; [by intros ? ?%elem_of_nil | by intros ? ?%elem_of_nil |].
        right. exists lastk. split; [done | by left]. }
      specialize (IH n None ko.1).
      destruct (scan prefix delimiter n None ko.1 kos) as [[items prefixes] marker].
      destruct IH as (Hi & Hp & Hm). split_and!.
      * intros item [->|(ko' & ? & ?)%Hi]%elem_of_cons.
        -- exists ko. split; [left | done].
        -- exists ko'. split; [by right | done].
      * intros c (ko' & ? & ?)%Hp. exists ko'. split; [by right | done].
      * by apply marker_step.
Qed.

(** A first page that starts afresh consumes a key before it stops. *)
Lemma scan_marker prefix delimiter n kos items prefixes marker :
  scan prefix delimiter (S n) None "" kos = (items, prefixes, marker) ->
  marker = "" ∨ exists l, marker = encode_marker l ∧ l ∈ kos.*1.
Proof.
  destruct kos as [|ko kos]; [intros [= _ _ <-]; by left|].
  cbn [scan]. intros Hscan.
  assert (Hrec : exists prev items' prefixes',
             scan prefix delimiter n prev ko.1 kos = (items', prefixes', marker)).
  { destruct (common_prefix prefix delimiter ko.1) as [cp|].
    - rewrite decide_False in Hscan by done.
      destruct (scan prefix delimiter n (Some cp) ko.1 kos) as [[i p] m] eqn:E.
      injection Hscan as _ _ <-. eauto.
    - destruct (scan prefix delimiter n None ko.1 kos) as [[i p] m] eqn:E.
      injection Hscan as _ _ <-. eauto. }
  destruct Hrec as (prev & items' & prefixes' & Hrec).
  pose proof (scan_sound prefix delimiter n prev ko.1 kos) as Hs.
  rewrite Hrec in Hs. destruct Hs as (_ & _ & [->|(l & -> & Hl)]); [by left|].
  right. exists l. split; [done|]. rewrite fmap_cons.
  destruct Hl as [->|Hl]; [left | by right].
Qed.

(** A marker that names a listed key leaves strictly less to list. *)
Lemma matching_shrinks m prefix marker l :
  l ∈ (matching m prefix marker).*1 ->
  (length (matching m prefix (encode_marker l)) < length (matching m prefix marker))%nat.
Proof.
  intros ([l' o] & -> & Hin)%list_elem_of_fmap_1. simpl.
  assert (Ha : after_marker marker l')
    by (by apply elem_of_matching in Hin as (_ & _ & ?)).
  assert (E : matching m prefix (encode_marker l')
              = filter (listed prefix (encode_marker l')) (matching m prefix marker)).
  { unfold matching. rewrite list_filter_filter_l; [done|].
    intros [k o'] [Hp Hk]. split; [done|]. simpl in *.
    apply after_encode_marker in Hk. by apply (after_marker_trans _ l'). }
  rewrite E. apply (length_filter_lt _ _ (l', o)); [done|].
  intros [_ Hk]. simpl in Hk. apply after_encode_marker in Hk.
  by destruct Hk as [_ []].
Qed.

(** ** The list loop *)

Lemma bucket_List_page prefix delimiter marker limit w :
  script w = [] ->
  bucket_List prefix delimiter marker limit w
  = (let '(items, prefixes, next) :=
       scan prefix delimiter (page_size limit) None ""
         (matching (objects w) prefix marker) in
     ((items, prefixes, next, if String.eqb next "" then Some EOF else None),
      log (EvList prefix delimiter marker limit) w)).
Proof.
  intros Hs. destruct w as [m s t n dom]. simpl in *. subst s.
  unfold bucket_List, bind, emit, attempt, world, ret, log. simpl.
  by destruct (scan _ _ _ _ _ _) as [[? ?] ?].
Qed.

(** With iterations to spare for every page, the loop returns, and a
    property that holds of the entry of every stored key under the prefix
    and of every common prefix of such a key holds of all it returns. *)
Lemma List_loop_entries (Q : string -> Prop) d path rootPrefix fuel marker files directories w :
  script w = [] ->
  (length (matching (objects w) (getKey d path) marker) < fuel)%nat ->
  (forall k o, objects w !! k = Some o ->
     String.prefix (getKey d path) k = true ->
     common_prefix (getKey d path) "/" k = None ->
     Q (file_entry d rootPrefix k)) ->
  (forall k o cp, objects w !! k = Some o ->
     String.prefix (getKey d path) k = true ->
     common_prefix (getKey d path) "/" k = Some cp ->
     Q (directory_entry d rootPrefix cp)) ->
  Forall Q files ->
  Forall Q directories ->
  exists entries w',
    List_loop fuel d path rootPrefix marker files directories w
    = Returns (entries, None) w'
    ∧ Forall Q entries.
Proof.
  intros Hs Hfuel Hfile Hdir.
  revert marker files directories w Hs Hfuel Hfile Hdir.
  induction fuel as [|fuel IH]; intros marker files directories w Hs Hfuel Hfile Hdir Hf Hd;
    [lia|].
  set (key := getKey d path) in *.
  cbn [List_loop]. fold key. rewrite (bucket_List_page key "/" marker listMax w Hs).
  rewrite page_size_listMax.
  pose proof (scan_sound key "/" 1000 None "" (matching (objects w) key marker)) as Hsound.
  pose proof (scan_marker key "/" 999 (matching (objects w) key marker)) as Hmark.
  destruct (scan key "/" 1000 None "" (matching (objects w) key marker))
    as [[items prefixes] next].
  destruct Hsound as (Hitems & Hprefixes & _).
  specialize (Hmark items prefixes next eq_refl).
  set (w1 := log (EvList key "/" marker listMax) w).
  assert (Herr : match (if String.eqb next "" then Some EOF else None) with
                 | Some e => if decide (e = EOF) then None else Some e
                 | None => None
                 end = None) by (by destruct (String.eqb next "")).
  rewrite Herr. clear Herr.
  assert (Hf' : Forall Q (files ++ ((fun item => GoStrings.Replace (kodo.Key item)
                                                   (getKey d "") rootPrefix) <$> items))).
  { apply Forall_app. split; [done|]. apply Forall_forall.
    intros e (item & -> & (ko & Hko & -> & Hcp)%Hitems)%list_elem_of_fmap_1.
    destruct ko as [k o]. apply elem_of_matching in Hko as (Ho & Hp & _).
    by apply (Hfile k o). }
  assert (Hd' : Forall Q (directories
                            ++ ((fun prefix => GoStrings.Replace
                                                 (GoStrings.TrimSuffix prefix "/")
                                                 (getKey d "") rootPrefix) <$> prefixes))).
  { apply Forall_app. split; [done|]. apply Forall_forall.
    intros e (cp & -> & ([k o] & Hko & Hcp)%Hprefixes)%list_elem_of_fmap_1.
    apply elem_of_matching in Hko as (Ho & Hp & _).
    by apply (Hdir k o cp). }
  destruct Hmark as [->|(l & -> & Hl)].
  - simpl. eexists _, _. split; [done|]. apply Forall_app. done.
  - rewrite encode_marker_nonempty.
    apply (IH (encode_marker l) _ _ w1); [by destruct w | | by destruct w | by destruct w | done | done].
    assert (objects w1 = objects w) as -> by (by destruct w).
    apply matching_shrinks in Hl. lia.
Qed.

(** ** Paths and keys *)

Lemma TrimLeft_app r p cutset :
  GoStrings.TrimLeft r cutset <> "" ->
  GoStrings.TrimLeft (r +:+ p) cutset = GoStrings.TrimLeft r cutset +:+ p.
Proof.
  induction r as [|c r IH]; [done|]. rewrite app_cons. simpl.
  destruct (GoStrings.contains_byte cutset c); [done|].
  intros _. by rewrite app_cons.
Qed.

(** Under a root that is not empty, the key of a path is the key of the
    root followed by the path. *)
Lemma getKey_rooted d path :
  getKey d "" <> "" -> getKey d path = getKey d "" +:+ path.
Proof.
  unfold getKey. rewrite app_empty_r. apply TrimLeft_app.
Qed.

Lemma Replace_prefix old new rest :
  GoStrings.Replace (old +:+ rest) old new = new +:+ rest.
Proof.
  assert (Hunfold : forall s, GoStrings.Replace s old new
                              = if String.prefix old s
                                then new +:+ GoStrings.drop (String.length old) s
                                else match s with
                                     | EmptyString => EmptyString
                                     | String c s' => String c (GoStrings.Replace s' old new)
                                     end) by (by intros []).
  by rewrite Hunfold, prefix_app, drop_app.
Qed.

Lemma TrimSuffix_slash s : GoStrings.TrimSuffix (s +:+ "/") "/" = s.
Proof.
  induction s as [|c s IH]; [done|]. rewrite app_cons.
  cbn [GoStrings.TrimSuffix]. rewrite IH.
  assert ((String c (s +:+ "/") =? "/")%string = false) as ->; [|done].
  apply String.eqb_neq. destruct s; done.
Qed.

Lemma through_Some s sep t :
  GoStrings.through s sep = Some t -> exists u r, t = u +:+ sep ∧ s = t +:+ r.
Proof.
  revert t. induction s as [|c s IH]; intros t.
  - destruct sep; [|done]. intros [= <-]. by exists "", "".
  - cbn [GoStrings.through]. destruct (String.prefix sep (String c s)) eqn:Hp.
    + intros [= <-]. exists "", (GoStrings.drop (String.length sep) (String c s)).
      split; [done|]. by apply prefix_split.
    + destruct (GoStrings.through s sep) as [t'|]; [|done].
      intros [= <-]. destruct (IH t' eq_refl) as (u & r & -> & Hs).
      exists (String c u), r. rewrite !app_cons. split; [done|]. by rewrite <- Hs.
Qed.

Lemma prefix_app_l a b k :
  String.prefix (a +:+ b) k = true -> String.prefix a k = true.
Proof.
  intros ->%prefix_split. rewrite app_assoc_str. apply prefix_app.
Qed.

Lemma last_byte_None s : GoStrings.last_byte s = None -> s = "".
Proof.
  induction s as [|c s IH]; [done|]. simpl. destruct s; [done|]. intros H.
  by specialize (IH H).
Qed.

Lemma last_byte_cons c s : s <> "" -> GoStrings.last_byte (String c s) = GoStrings.last_byte s.
Proof. by destruct s. Qed.

Lemma segments_last slash s :
  segments slash s = true -> s <> "" -> GoStrings.last_byte s <> Some "/"%char.
Proof.
  revert slash. induction s as [|c s IH]; intros slash; [done|].
  cbn [segments]. destruct (Ascii.eqb_spec c "/") as [->|Hc].
  - destruct slash; [done|]. intros Hs _. destruct s as [|c' s]; [done|].
    rewrite last_byte_cons by done. by apply (IH true).
  - intros Hs _. destruct s as [|c' s]; [simpl; congruence|].
    rewrite last_byte_cons by done. by apply (IH false).
Qed.

(** A segment boundary inside a well-formed tail is not preceded by [/]. *)
Lemma segments_boundary slash a r :
  segments slash (a +:+ String "/" r) = true ->
  (a = "" -> slash = false) ∧ (a <> "" -> GoStrings.last_byte a <> Some "/"%char).
Proof.
  revert slash. induction a as [|c a IH]; intros slash.
  - rewrite app_empty_l. simpl. destruct slash; [done|]. intros _. done.
  - rewrite app_cons. cbn [segments]. intros Hs. split; [done|]. intros _.
    destruct (Ascii.eqb_spec c "/") as [->|Hc].
    + destruct slash; [done|]. destruct (IH true Hs) as [Hnil Hlast].
      destruct a as [|c' a]; [by specialize (Hnil eq_refl)|].
      rewrite last_byte_cons by done. by apply Hlast.
    + destruct (IH false Hs) as [_ Hlast].
      destruct a as [|c' a]; [simpl; congruence|].
      rewrite last_byte_cons by done. by apply Hlast.
Qed.

Lemma path_ok_leading p : path_ok p = true -> String.prefix "/" p = true.
Proof.
  destruct p as [|c s]; [done|]. simpl.
  intros [Hc _]%andb_true_iff. apply Ascii.eqb_eq in Hc as ->.
  by destruct s.
Qed.

Lemma path_ok_trailing p : path_ok p = true -> GoStrings.last_byte p <> Some "/"%char.
Proof.
  destruct p as [|c s]; [done|]. unfold path_ok.
  intros [Hc Hs]%andb_true_iff.
  destruct s as [|c' s]; [done|].
  rewrite last_byte_cons by done. by apply (segments_last true).
Qed.

(** The part of a well-formed path before one of its separators is not
    empty past the leading [/], starts with [/] and does not end with
    [/]. *)
Lemma path_ok_ancestor a r :
  path_ok (a +:+ String "/" r) = true -> a <> "" ->
  String.prefix "/" a = true ∧ GoStrings.last_byte a <> Some "/"%char.
Proof.
  destruct a as [|c a]; [done|]. rewrite app_cons. unfold path_ok.
  intros [Hc Hs]%andb_true_iff _. apply Ascii.eqb_eq in Hc as ->.
  split; [by destruct a|].
  destruct (segments_boundary true a r Hs) as [Hnil Hlast].
  destruct a as [|c' a]; [by specialize (Hnil eq_refl)|].
  rewrite last_byte_cons by done. by apply Hlast.
Qed.

(** * The claims *)

(** C1: overwriting a middle span.  With the object stored and
    [0 < offset < existingSize] (and [offset + writtenLength] within
    [int64]), the parts are the old prefix up to [offset], the incoming
    bytes and, exactly when [offset + writtenLength < existingSize], the
    old tail from [offset + writtenLength]; the composed object keeps the
    bytes before [offset], holds the incoming bytes from [offset] on, and
    keeps the old bytes beyond them. *)
Theorem WriteStream_overwrite_middle d path offset data o w :
  script w = [] ->
  objects w !! getKey d path = Some o ->
  0 < offset < Z.of_nat (length (content o)) ->
  offset + Z.of_nat (length data) <= Int64.max_int ->
  let key := getKey d path in
  let old := content o in
  let written := Z.of_nat (length data) in
  let parts :=
    [RemoteRange key 0 offset; LocalBytes data]
      ++ (if offset + written <? Z.of_nat (length old)
          then [RemoteRange key (offset + written) (-1)] else []) in
  let new := splice old data (Z.to_nat offset) in
  WriteStream d path offset data w = ((written, None), composed d path parts new w)
  ∧ take (Z.to_nat offset) new = take (Z.to_nat offset) old
  ∧ take (length data) (drop (Z.to_nat offset) new) = data
  ∧ drop (Z.to_nat (offset + written)) new = drop (Z.to_nat (offset + written)) old.
Proof.
  intros Hs Hm Hoff Hmax key old written parts new.
  assert (Hn : (Z.to_nat offset <= length old)%nat) by (subst old; lia).
  destruct (splice_spec old data (Z.to_nat offset) Hn) as (H1 & H2 & H3).
  assert (Hsum : Z.to_nat (offset + written) = (Z.to_nat offset + length data)%nat)
    by (subst written; lia).
  split_and!; [| done | done | by rewrite Hsum].
  rewrite (WriteStream_stored d path offset data o w Hs Hm). cbv zeta.
  fold key written old.
  assert (Hparts : WriteStream_parts key offset written (Z.of_nat (length old)) data = parts).
  { unfold WriteStream_parts.
    assert ((offset =? 0) = false) as -> by (apply Z.eqb_neq; lia).
    assert ((offset =? Z.of_nat (length old)) = false) as -> by (apply Z.eqb_neq; subst old; lia).
    assert ((offset <? Z.of_nat (length old)) = true) as -> by (apply Z.ltb_lt; subst old; lia).
    cbv zeta. rewrite Int64_add_exact.
    - by rewrite (Z.add_comm written offset).
    - unfold Int64.in_range, Int64.min_int, Int64.max_int in *. subst written. lia. }
  rewrite Hparts.
  assert (Hcomp : compose (objects w) parts = inr new).
  { subst parts new. unfold splice. simpl.
    rewrite (part_bytes_head _ key o offset Hm) by lia.
    destruct (offset + written <? Z.of_nat (length old)) eqn:Hlt; simpl.
    - apply Z.ltb_lt in Hlt.
      rewrite (part_bytes_tail _ key o (offset + written) Hm) by (subst old written; lia).
      rewrite app_nil_r. by rewrite Hsum.
    - apply Z.ltb_ge in Hlt.
      rewrite (drop_ge old) by (subst old written; lia). done. }
  by rewrite Hcomp.
Qed.

(** C1 at a sample: ["Z"] written at offset 2 over ["abcdef"] gives
    ["abZdef"]. *)
Lemma WriteStream_overwrite_middle_sample :
  let w := sample_world {["root/foo" := sample_object "abcdef"]} in
  (WriteStream sample_driver "/foo" 2 (bytes "Z") w).1 = (1, None)
  ∧ objects (WriteStream sample_driver "/foo" 2 (bytes "Z") w).2 !! "root/foo"
    = Some {| content := bytes "abZdef"; putTime := 9 |}.
Proof.
  intros w.
  destruct (WriteStream_overwrite_middle sample_driver "/foo" 2 (bytes "Z")
              (sample_object "abcdef") w) as [Hrun _].
  - reflexivity.
  - vm_compute. reflexivity.
  - vm_compute. split; reflexivity.
  - vm_compute. discriminate.
  - rewrite Hrun. split; [reflexivity | vm_compute; reflexivity].
Defined.

(** C2 (as amended): appending at the end.  With the object stored and
    [offset = existingSize], the parts are the whole old object followed
    by the incoming bytes when the object is not empty, and the incoming
    bytes alone when it is empty (the [offset == 0] case comes first); in
    both cases the composed object is the old bytes followed by the
    incoming bytes, [existingSize + writtenLength] bytes long. *)
Theorem WriteStream_append d path offset data o w :
  script w = [] ->
  objects w !! getKey d path = Some o ->
  offset = Z.of_nat (length (content o)) ->
  let key := getKey d path in
  let old := content o in
  let written := Z.of_nat (length data) in
  let parts :=
    if offset =? 0 then [LocalBytes data]
    else [RemoteRange key 0 (-1); LocalBytes data] in
  WriteStream d path offset data w
  = ((written, None), composed d path parts (old ++ data) w)
  ∧ Z.of_nat (length (old ++ data)) = Z.of_nat (length old) + written.
Proof.
  intros Hs Hm Hoff key old written parts.
  split; [|rewrite length_app; lia].
  rewrite (WriteStream_stored d path offset data o w Hs Hm). cbv zeta.
  fold key written old. unfold WriteStream_parts. subst parts.
  destruct (offset =? 0) eqn:H0.
  - apply Z.eqb_eq in H0.
    assert ((written <? Z.of_nat (length old)) = false) as ->
      by (apply Z.ltb_ge; subst old written; lia).
    assert (old = []) as -> by (apply nil_length_inv; subst old; lia).
    simpl. by rewrite app_nil_r.
  - assert ((offset =? Z.of_nat (length old)) = true) as ->
      by (apply Z.eqb_eq; by subst old).
    simpl. rewrite (part_bytes_tail _ key o 0 Hm) by lia.
    simpl. by rewrite app_nil_r.
Qed.

(** C3: writing past the end.  With the object stored and
    [offset > existingSize], the parts are the whole old object,
    [offset - existingSize] zero bytes and the incoming bytes; the
    composed object is their concatenation, [offset + writtenLength]
    bytes long. *)
Theorem WriteStream_past_end d path offset data o w :
  script w = [] ->
  objects w !! getKey d path = Some o ->
  Z.of_nat (length (content o)) < offset <= Int64.max_int ->
  let key := getKey d path in
  let old := content o in
  let written := Z.of_nat (length data) in
  let gap := replicate (Z.to_nat (offset - Z.of_nat (length old))) Byte.x00 in
  let parts := [RemoteRange key 0 (-1); LocalBytes gap; LocalBytes data] in
  WriteStream d path offset data w
  = ((written, None), composed d path parts (old ++ gap ++ data) w)
  ∧ Z.of_nat (length (old ++ gap ++ data)) = offset + written.
Proof.
  intros Hs Hm Hoff key old written gap parts.
  split; [|subst gap; rewrite !length_app, length_replicate; subst old written; lia].
  rewrite (WriteStream_stored d path offset data o w Hs Hm). cbv zeta.
  fold key written old. unfold WriteStream_parts.
  assert ((offset =? 0) = false) as -> by (apply Z.eqb_neq; lia).
  assert ((offset =? Z.of_nat (length old)) = false) as ->
    by (apply Z.eqb_neq; subst old; lia).
  assert ((offset <? Z.of_nat (length old)) = false) as ->
    by (apply Z.ltb_ge; subst old; lia).
  assert ((offset >? Z.of_nat (length old)) = true) as ->
    by (apply Z.gtb_lt; subst old; lia).
  cbv zeta. rewrite Int64_sub_exact.
  2:{ unfold Int64.in_range, Int64.min_int, Int64.max_int in *. subst old. lia. }
  fold gap. fold parts. subst parts. simpl.
  rewrite (part_bytes_tail _ key o 0 Hm) by lia.
  simpl. by rewrite app_nil_r.
Qed.

(** C4: writing at the start.  With the object stored and [offset = 0],
    the parts are the incoming bytes followed, exactly when
    [writtenLength < existingSize], by the old object from
    [writtenLength] on; the composed object starts with the incoming
    bytes and keeps the old bytes beyond them. *)
Theorem WriteStream_overwrite_prefix d path data o w :
  script w = [] ->
  objects w !! getKey d path = Some o ->
  let key := getKey d path in
  let old := content o in
  let written := Z.of_nat (length data) in
  let parts :=
    [LocalBytes data]
      ++ (if written <? Z.of_nat (length old)
          then [RemoteRange key written (-1)] else []) in
  let new := data ++ drop (length data) old in
  WriteStream d path 0 data w = ((written, None), composed d path parts new w)
  ∧ take (length data) new = data
  ∧ drop (length data) new = drop (length data) old.
Proof.
  intros Hs Hm key old written parts new.
  split_and!; [| by apply take_app_length | by apply drop_app_length].
  rewrite (WriteStream_stored d path 0 data o w Hs Hm). cbv zeta.
  fold key written old. unfold WriteStream_parts. simpl (0 =? 0).
  cbv iota. fold parts. subst parts new. simpl.
  destruct (written <? Z.of_nat (length old)) eqn:Hlt; simpl.
  - apply Z.ltb_lt in Hlt.
    rewrite (part_bytes_tail _ key o written Hm) by (subst old; lia).
    subst written. rewrite Nat2Z.id, app_nil_r. done.
  - apply Z.ltb_ge in Hlt.
    rewrite (drop_ge old) by (subst old written; lia). done.
Qed.

(** C2 fails as stated at an empty object: the write at offset
    [0 = existingSize] submits the incoming bytes alone, not the old
    object followed by them. *)
Lemma WriteStream_append_empty_object :
  objects (sample_world {["root/foo" := sample_object ""]}) !! getKey sample_driver "/foo"
  = Some (sample_object "")
  ∧ 0 = Z.of_nat (length (content (sample_object "")))
  ∧ trace (WriteStream sample_driver "/foo" 0 (bytes "x")
             (sample_world {["root/foo" := sample_object ""]})).2
    = [EvList "root/foo" "" "" 1; EvPutParts "root/foo" [LocalBytes (bytes "x")]]
  ∧ [LocalBytes (bytes "x")] <> [RemoteRange "root/foo" 0 (-1); LocalBytes (bytes "x")].
Proof. split_and!; [vm_compute; reflexivity .. | discriminate]. Qed.

(** C2 (as amended) at the spec's scenario B: [" world"] appended to
    ["hello"] gives ["hello world"], 11 bytes. *)
Lemma WriteStream_append_sample :
  let w := sample_world {["root/foo" := sample_object "hello"]} in
  WriteStream sample_driver "/foo" 5 (bytes " world") w
  = ((6, None),
     composed sample_driver "/foo"
       [RemoteRange "root/foo" 0 (-1); LocalBytes (bytes " world")]
       (bytes "hello world") w)
  ∧ Z.of_nat (length (bytes "hello world")) = 11.
Proof.
  intros w.
  destruct (WriteStream_append sample_driver "/foo" 5 (bytes " world")
              (sample_object "hello") w) as [Hrun _].
  - reflexivity.
  - vm_compute. reflexivity.
  - reflexivity.
  - rewrite Hrun. split; reflexivity.
Defined.

(** C3 at the spec's scenario C: ["Z"] written at offset 5 after ["abc"]
    gives ["abc"], two zero bytes and ["Z"], 6 bytes. *)
Lemma WriteStream_past_end_sample :
  let w := sample_world {["root/foo" := sample_object "abc"]} in
  WriteStream sample_driver "/foo" 5 (bytes "Z") w
  = ((1, None),
     composed sample_driver "/foo"
       [RemoteRange "root/foo" 0 (-1); LocalBytes [Byte.x00; Byte.x00]; LocalBytes (bytes "Z")]
       (bytes "abc" ++ [Byte.x00; Byte.x00] ++ bytes "Z") w)
  ∧ Z.of_nat (length (bytes "abc" ++ [Byte.x00; Byte.x00] ++ bytes "Z")) = 6.
Proof.
  intros w.
  destruct (WriteStream_past_end sample_driver "/foo" 5 (bytes "Z")
              (sample_object "abc") w) as [Hrun _].
  - reflexivity.
  - vm_compute. reflexivity.
  - vm_compute. split; [reflexivity | discriminate].
  - rewrite Hrun. split; reflexivity.
Defined.

(** C4 at the spec's scenario A: ["X"] written at offset 0 over
    ["hello world"] gives ["Xello world"]. *)
Lemma WriteStream_overwrite_prefix_sample :
  let w := sample_world {["root/foo" := sample_object "hello world"]} in
  WriteStream sample_driver "/foo" 0 (bytes "X") w
  = ((1, None),
     composed sample_driver "/foo"
       [LocalBytes (bytes "X"); RemoteRange "root/foo" 1 (-1)]
       (bytes "Xello world") w).
Proof.
  intros w.
  destruct (WriteStream_overwrite_prefix sample_driver "/foo" (bytes "X")
              (sample_object "hello world") w) as [Hrun _].
  - reflexivity.
  - vm_compute. reflexivity.
  - rewrite Hrun. reflexivity.
Defined.


(** C9: reading at or past the end.  For a stored object of size [S]
    and [offset >= S], [ReadStream] returns an empty reader and no error
    after the stat call alone; for [offset < S] the download request is
    the next call. *)
Theorem ReadStream_at_or_past_end d path offset o w :
  script w = [] ->
  objects w !! getKey d path = Some o ->
  (Z.of_nat (length (content o)) <= offset ->
   ReadStream d path offset w = ((Some [], None), log (EvStat (getKey d path)) w))
  ∧ (offset < Z.of_nat (length (content o)) ->
     trace (ReadStream d path offset w).2
     = trace w
         ++ [EvStat (getKey d path);
             EvDo {| Method := "GET";
                     URL := BaseURL (params d) +:+ getKey d path;
                     Range := if offset >? 0 then Some offset else None |}]).
Proof.
  intros Hs Hm. destruct w as [m s t n dom]. simpl in *. subst s.
  unfold ReadStream, bind, bucket_Stat, bind, emit, attempt, world, ret, log. simpl.
  rewrite Hm. simpl. split; intros Hoff.
  - assert ((offset >=? Z.of_nat (length (content o))) = true) as ->
      by (apply Z.geb_le; lia).
    reflexivity.
  - assert ((offset >=? Z.of_nat (length (content o))) = false) as ->.
    { rewrite Z.geb_leb. apply Z.leb_gt. lia. }
    unfold client_Do, bind, emit, attempt, world, ret, log, MakePrivateUrl. simpl.
    rewrite <- app_assoc. simpl.
    destruct (if String.prefix dom _ then _ else _); [destruct (if offset >? 0 then _ else _)|];
      simpl; reflexivity.
Qed.

(** C10: moving onto a destination.  With the source stored, the calls
    are the stat of the source, the delete of the destination and then
    the move, whether or not the destination was stored; when the two
    keys differ the move succeeds and the destination holds the source's
    object.  With the source missing, [Move] returns the not-found error
    of the source path after the stat call alone, and the bucket is as it
    was. *)
Theorem Move_overwrites_destination d sourcePath destPath w :
  script w = [] ->
  let src := getKey d sourcePath in
  let dest := getKey d destPath in
  (forall o,
     objects w !! src = Some o ->
     trace (Move d sourcePath destPath w).2
     = trace w ++ [EvStat src; EvDelete dest; EvMove src dest]
     ∧ (src <> dest ->
        (Move d sourcePath destPath w).1 = None
        ∧ objects (Move d sourcePath destPath w).2
          = <[dest := o]> (delete src (delete dest (objects w)))))
  ∧ (objects w !! src = None ->
     Move d sourcePath destPath w
     = (Some (PathNotFoundError sourcePath), log (EvStat src) w)).
Proof.
  intros Hs src dest. destruct w as [m s t n dom]. simpl in *. subst s.
  unfold Move, bind, bucket_Stat, bind, emit, attempt, world, ret, log. simpl.
  fold src dest. split.
  - intros o Hm. rewrite Hm. simpl.
    unfold bucket_Delete, bucket_Move, bind, emit, attempt, world, store, ret, log,
      set_objects. simpl.
    destruct (m !! dest) as [o'|] eqn:Hd; simpl.
    + split.
      * destruct (delete dest m !! src); simpl;
          [rewrite lookup_delete_eq; simpl|]; by rewrite <- !app_assoc.
      * intros Hne. rewrite lookup_delete_ne by done. rewrite Hm.
        rewrite lookup_delete_eq. simpl. done.
    + rewrite Hm, Hd. simpl. split; [by rewrite <- !app_assoc|].
      intros Hne. by rewrite (delete_id m dest).
  - intros Hm. rewrite Hm. reflexivity.
Qed.


(** C8 fails on the code: with nothing stored at or under [/foo] but a
    sibling key [root/foobar], [Stat] reports [/foo] as a directory. *)
Example Stat_sibling_key_is_directory :
  objects (sample_world {["root/foobar" := sample_object "x"]}) !! "root/foo" = None
  ∧ String.prefix "root/foo/" "root/foobar" = false
  ∧ (Stat sample_driver "/foo" (sample_world {["root/foobar" := sample_object "x"]})).1
    = (Some {| Path := "/foo"; Size := 0; ModTime := None; IsDir := true |}, None).
Proof. split_and!; vm_compute; reflexivity. Qed.

(** C9 at a sample: reading ["abc"] from offset 3 yields nothing after
    the stat call alone; from offset 2 the download is requested. *)
Lemma ReadStream_at_or_past_end_sample :
  let w := sample_world {["root/foo" := sample_object "abc"]} in
  ReadStream sample_driver "/foo" 3 w = ((Some [], None), log (EvStat "root/foo") w)
  ∧ trace (ReadStream sample_driver "/foo" 2 w).2
    = [EvStat "root/foo";
       EvDo {| Method := "GET"; URL := "http://cdn.example/root/foo"; Range := Some 2 |}].
Proof.
  intros w. split.
  - apply (ReadStream_at_or_past_end sample_driver "/foo" 3 (sample_object "abc") w);
      [reflexivity | vm_compute; reflexivity | vm_compute; discriminate].
  - apply (ReadStream_at_or_past_end sample_driver "/foo" 2 (sample_object "abc") w);
      [reflexivity | vm_compute; reflexivity | vm_compute; reflexivity].
Defined.

(** C10 at samples: moving [/foo] onto a stored [/bar] deletes [/bar]
    first and leaves the object of [/foo] there; moving a missing [/foo]
    is refused and [/bar] stays. *)
Lemma Move_overwrites_destination_sample :
  let w := sample_world (<["root/foo" := sample_object "new"]>
                           {["root/bar" := sample_object "old"]}) in
  let w' := sample_world {["root/bar" := sample_object "old"]} in
  (trace (Move sample_driver "/foo" "/bar" w).2
   = [EvStat "root/foo"; EvDelete "root/bar"; EvMove "root/foo" "root/bar"]
   ∧ (Move sample_driver "/foo" "/bar" w).1 = None
   ∧ objects (Move sample_driver "/foo" "/bar" w).2 !! "root/bar"
     = Some (sample_object "new"))
  ∧ Move sample_driver "/foo" "/bar" w'
    = (Some (PathNotFoundError "/foo"), log (EvStat "root/foo") w').
Proof.
  intros w w'. split.
  - destruct (proj1 (Move_overwrites_destination sample_driver "/foo" "/bar" w eq_refl)
                (sample_object "new")) as [Htrace Hmove].
    { vm_compute. reflexivity. }
    destruct Hmove as [Hnil Hobj]; [vm_compute; discriminate|].
    split_and!; [done | done |]. rewrite Hobj. vm_compute. reflexivity.
  - apply (Move_overwrites_destination sample_driver "/foo" "/bar" w' eq_refl).
    vm_compute. reflexivity.
Defined.


(** C6: listing under a root.  With a root prefix that is not empty and
    a bucket whose keys under the listed path are the keys of well-formed
    paths, [List] returns for any path that is not empty, given
    iterations to spare for every page; every entry it returns has the
    root prefix stripped (its key under the root is a stored key or the
    directory of one), begins with [/] and does not end with [/]. *)
Theorem List_strips_root d path fuel w :
  script w = [] ->
  getKey d "" <> "" ->
  path <> "" ->
  (forall k, is_Some (objects w !! k) -> String.prefix (getKey d path) k = true ->
             exists p, path_ok p = true ∧ k = getKey d p) ->
  (size (objects w) < fuel)%nat ->
  exists entries w',
    List fuel d path w = Returns (entries, None) w'
    ∧ Forall (listed_path d w) entries.
Proof.
  intros Hs Hroot Hpath Hkeys Hfuel. unfold List.
  set (root := getKey d "") in *.
  assert (Hq : exists q, q <> "" ∧ (q = path ∨ q = path +:+ "/")
                 ∧ (if String.eqb path "/" then Some path
                    else match GoStrings.last_byte path with
                         | None => None
                         | Some c => if Ascii.eqb c "/" then Some path else Some (path +:+ "/")
                         end) = Some q).
  { destruct (String.eqb path "/"); [exists path; auto|].
    destruct (GoStrings.last_byte path) as [c|] eqn:Hl; [|by apply last_byte_None in Hl].
    destruct (Ascii.eqb c "/"); [exists path; auto|]. exists (path +:+ "/").
    split_and!; [by destruct path | by right | done]. }
  destruct Hq as (q & Hq & Hqp & ->).
  assert (Hunder : forall k, String.prefix (getKey d q) k = true ->
                             String.prefix (getKey d path) k = true).
  { intros k Hk. destruct Hqp as [->| ->]; [done|].
    rewrite (getKey_rooted d _ Hroot) in Hk. rewrite (getKey_rooted d path Hroot).
    rewrite <- app_assoc_str in Hk. by apply prefix_app_l in Hk. }
  assert ((root =? "")%string = false) as -> by (by apply String.eqb_neq).
  apply List_loop_entries; [done | | | | done | done].
  - pose proof (matching_length (objects w) (getKey d q) ""). lia.
  - intros k o Ho Hpre _. destruct (Hkeys k) as (p & Hp & ->); [by eexists | by apply Hunder |].
    unfold file_entry. fold root. rewrite (getKey_rooted d p Hroot). fold root.
    rewrite Replace_prefix, app_empty_l. split_and!.
    + by apply path_ok_leading.
    + by apply path_ok_trailing.
    + exists (getKey d p). split; [by eexists | by left].
  - intros k o cp Ho Hpre Hcp.
    destruct (Hkeys k) as (p & Hp & ->); [by eexists | by apply Hunder |].
    unfold common_prefix in Hcp. simpl String.eqb in Hcp. cbv iota in Hcp.
    destruct (GoStrings.through _ "/") as [t|] eqn:Ht; [|done].
    injection Hcp as <-.
    apply through_Some in Ht as (u & r & -> & Hrest).
    apply prefix_split in Hpre. rewrite Hrest in Hpre.
    rewrite (getKey_rooted d p Hroot), (getKey_rooted d q Hroot) in Hpre. fold root in Hpre.
    rewrite !app_assoc_str in Hpre. apply (inj (String.app root)) in Hpre.
    unfold directory_entry. fold root. rewrite (getKey_rooted d q Hroot). fold root.
    rewrite <- (app_assoc_str (root +:+ q) u "/"), TrimSuffix_slash.
    rewrite app_assoc_str, Replace_prefix, app_empty_l.
    rewrite <- app_assoc_str in Hpre. change ("/" +:+ r) with (String "/" r) in Hpre.
    assert (Hne : q +:+ u <> "") by (by destruct q).
    rewrite Hpre in Hp. destruct (path_ok_ancestor _ _ Hp Hne) as [Hlead Htrail].
    split_and!; [done | done |].
    exists (getKey d p). split; [by eexists|]. right.
    rewrite (getKey_rooted d p Hroot), (getKey_rooted d (q +:+ u) Hroot). fold root.
    rewrite Hpre. change (String "/" r) with ("/" +:+ r).
    rewrite <- !app_assoc_str. apply prefix_app.
Qed.

Lemma sample_tree_keys k :
  is_Some (sample_tree !! k) -> k = "root/a/b" ∨ k = "root/a/c/d" ∨ k = "root/foo".
Proof.
  unfold sample_tree. intros [o Ho].
  apply lookup_insert_Some in Ho as [[<- _]|[_ Ho]]; [auto|].
  apply lookup_insert_Some in Ho as [[<- _]|[_ Ho]]; [auto|].
  apply lookup_insert_Some in Ho as [[<- _]|[_ Ho]]; [auto|].
  by rewrite lookup_empty in Ho.
Qed.


(** C6 at a sample: listing [/] under the root [/root] returns [/foo]
    and [/a]. *)
Lemma List_strips_root_sample :
  exists entries w',
    List 4 sample_driver "/" (sample_world sample_tree) = Returns (entries, None) w'
    ∧ Forall (listed_path sample_driver (sample_world sample_tree)) entries.
Proof.
  apply (List_strips_root sample_driver "/" 4 (sample_world sample_tree));
    [reflexivity | vm_compute; discriminate | discriminate | | vm_compute; lia].
  intros k [->|[->| ->]]%sample_tree_keys _.
  - by exists "/a/b".
  - by exists "/a/c/d".
  - by exists "/foo".
Defined.

Example List_sample_entries :
  exists w', List 4 sample_driver "/" (sample_world sample_tree)
             = Returns (["/foo"; "/a"], None) w'.
Proof. eexists. vm_compute. reflexivity. Qed.

(** * The rest of the driver *)

(** ** Keys *)

Lemma TrimLeft_no_leading s c :
  String.prefix (String c "") (GoStrings.TrimLeft s (String c "")) = false.
Proof.
  induction s as [|x s IH]; [done|]. simpl.
  destruct (Ascii.eqb_spec c x) as [->|Hx]; [done|].
  simpl. destruct (ascii_dec c x); [done | done].
Qed.

Lemma TrimLeft_app_empty r p cutset :
  GoStrings.TrimLeft r cutset = "" ->
  GoStrings.TrimLeft (r +:+ p) cutset = GoStrings.TrimLeft p cutset.
Proof.
  induction r as [|c r IH]; [done|]. rewrite app_cons. simpl.
  destruct (GoStrings.contains_byte cutset c); [done | done].
Qed.

(** Under a root of which nothing is left, the key of a path is the path
    without its leading slashes. *)
Lemma getKey_unrooted d path :
  getKey d "" = "" -> getKey d path = GoStrings.TrimLeft path "/".
Proof.
  unfold getKey. rewrite app_empty_r. apply TrimLeft_app_empty.
Qed.

Lemma path_ok_tail p :
  path_ok p = true ->
  exists c s, p = String "/" (String c s) ∧ c <> "/"%char.
Proof.
  destruct p as [|c0 s]; [done|]. unfold path_ok.
  intros [Hc Hs]%andb_true_iff. apply Ascii.eqb_eq in Hc as ->.
  destruct s as [|c s]; [done|]. cbn [segments] in Hs.
  destruct (Ascii.eqb_spec c "/") as [->|Hc]; [done|]. eauto.
Qed.

Lemma TrimLeft_path_ok p :
  path_ok p = true -> String "/" (GoStrings.TrimLeft p "/") = p.
Proof.
  intros (c & s & -> & Hc)%path_ok_tail.
  cbn [GoStrings.TrimLeft GoStrings.contains_byte]. rewrite Ascii.eqb_refl.
  destruct (Ascii.eqb_spec "/" c) as [<-|_]; done.
Qed.

(** X1: a key never begins with the separator, whatever the root
    directory and the path are. *)
Theorem getKey_no_leading_slash d path :
  GoStrings.HasPrefix (getKey d path) "/" = false.
Proof. unfold GoStrings.HasPrefix, getKey. apply TrimLeft_no_leading. Qed.

(** X2: the key of a path under a driver made by [New] is the root
    directory without its leading and trailing slashes, followed by the
    path as it is; when nothing is left of the root directory, it is the
    path without its leading slashes. *)
Theorem getKey_New p path :
  let root := GoStrings.TrimLeft (GoStrings.TrimRight (RootDirectory p) "/") "/" in
  getKey (New p) path
  = if String.eqb root "" then GoStrings.TrimLeft path "/" else root +:+ path.
Proof.
  intros root. unfold getKey. simpl. fold root.
  destruct (String.eqb_spec root "") as [Hr|Hr].
  - by apply TrimLeft_app_empty.
  - by apply TrimLeft_app.
Qed.

(** X3: two well-formed paths have the same key exactly when they are
    the same path. *)
Theorem getKey_injective d p q :
  path_ok p = true -> path_ok q = true ->
  String.eqb (getKey d p) (getKey d q) = String.eqb p q.
Proof.
  intros Hp Hq. destruct (String.eqb_spec p q) as [->|Hne]; [apply String.eqb_refl|].
  apply String.eqb_neq. intros Hk. destruct Hne.
  destruct (decide (getKey d "" = "")) as [Hr|Hr].
  - rewrite !(getKey_unrooted d _ Hr) in Hk.
    rewrite <- (TrimLeft_path_ok p Hp), <- (TrimLeft_path_ok q Hq). by rewrite Hk.
  - rewrite (getKey_rooted d p Hr), (getKey_rooted d q Hr) in Hk.
    by apply (inj (String.app (getKey d ""))) in Hk.
Qed.

Lemma getKey_injective_sample :
  String.eqb (getKey sample_driver "/a/b") (getKey sample_driver "/a/c")
  = String.eqb "/a/b" "/a/c".
Proof. apply (getKey_injective sample_driver "/a/b" "/a/c"); reflexivity. Defined.

(** ** Construction *)

Lemma HasSuffix_app_slash s : GoStrings.HasSuffix (s +:+ "/") "/" = true.
Proof.
  induction s as [|c s IH]; [done|]. rewrite app_cons. cbn [GoStrings.HasSuffix].
  rewrite IH. by destruct (String.eqb _ _).
Qed.

Lemma TrimRight_cons c s cutset :
  GoStrings.TrimRight (String c s) cutset
  = match GoStrings.TrimRight s cutset with
    | EmptyString =>
        if GoStrings.contains_byte cutset c then EmptyString else String c EmptyString
    | t => String c t
    end.
Proof. reflexivity. Qed.

Lemma TrimRight_no_trailing r : GoStrings.HasSuffix (GoStrings.TrimRight r "/") "/" = false.
Proof.
  induction r as [|c r IH]; [done|]. rewrite TrimRight_cons.
  destruct (GoStrings.TrimRight r "/") as [|c' t] eqn:E.
  - cbn [GoStrings.contains_byte]. destruct (Ascii.eqb_spec "/" c) as [<-|Hc]; [done|].
    cbn [GoStrings.HasSuffix].
    assert ((String c "" =? "/")%string = false) as ->; [|done].
    apply String.eqb_neq. congruence.
  - cbn [GoStrings.HasSuffix] in *.
    assert ((String c (String c' t) =? "/")%string = false) as ->; [|done].
    apply String.eqb_neq. congruence.
Qed.

Lemma TrimRight_idemp r cutset :
  GoStrings.TrimRight (GoStrings.TrimRight r cutset) cutset = GoStrings.TrimRight r cutset.
Proof.
  induction r as [|c r IH]; [done|]. rewrite TrimRight_cons.
  destruct (GoStrings.TrimRight r cutset) as [|c' t] eqn:E.
  - destruct (GoStrings.contains_byte cutset c) eqn:Hc; [done|].
    rewrite TrimRight_cons. simpl. by rewrite Hc.
  - rewrite TrimRight_cons. by rewrite IH.
Qed.

(** X4: [New] leaves a base URL that ends with a slash and a root
    directory that does not, and normalising again changes nothing. *)
Theorem New_normalises p :
  GoStrings.HasSuffix (BaseURL (params (New p))) "/" = true
  ∧ GoStrings.HasSuffix (RootDirectory (params (New p))) "/" = false
  ∧ New (params (New p)) = New p.
Proof.
  assert (Hb : GoStrings.HasSuffix (BaseURL (params (New p))) "/" = true).
  { simpl. destruct (GoStrings.HasSuffix (BaseURL p) "/") eqn:E; [done|].
    apply HasSuffix_app_slash. }
  split_and!; [done | apply TrimRight_no_trailing |].
  unfold New at 1. rewrite Hb. simpl RootDirectory at 1.
  rewrite TrimRight_idemp. reflexivity.
Qed.

Lemma provided_string parameters k :
  provided parameters k
  <-> (let (s, ok) := assert_string (parameters !! k) in negb ok || String.eqb s "") = false.
Proof.
  unfold provided, assert_string. split.
  - intros (s & -> & Hs). simpl. by apply String.eqb_neq.
  - destruct (parameters !! k) as [[| s | | |]|]; try done.
    simpl. intros Hs%String.eqb_neq. eauto.
Qed.

(** X5: [FromParameters] makes a driver exactly when the bucket, the
    base URL, the access key and the secret key are each given as a
    string that is not empty; otherwise it makes none and reports an
    error. *)
Theorem FromParameters_required parameters :
  ((FromParameters parameters).2 = None
   <-> provided parameters "bucket" ∧ provided parameters "baseurl"
       ∧ provided parameters "accesskey" ∧ provided parameters "secretkey")
  ∧ ((FromParameters parameters).1 = None <-> (FromParameters parameters).2 <> None).
Proof.
  rewrite !provided_string. unfold FromParameters.
  destruct (assert_string (parameters !! "bucket")) as [s1 ok1].
  destruct (negb ok1 || String.eqb s1 ""); [simpl; intuition congruence|].
  destruct (assert_string (parameters !! "baseurl")) as [s2 ok2].
  destruct (negb ok2 || String.eqb s2 ""); [simpl; intuition congruence|].
  destruct (assert_string (parameters !! "accesskey")) as [s3 ok3].
  destruct (negb ok3 || String.eqb s3 ""); [simpl; intuition congruence|].
  destruct (assert_string (parameters !! "secretkey")) as [s4 ok4].
  destruct (negb ok4 || String.eqb s4 ""); simpl; intuition congruence.
Qed.

(** X6: the error of [FromParameters] names the first of bucket, base
    URL, access key and secret key, in this order, that is not
    provided. *)
Theorem FromParameters_first_missing parameters before k after :
  ["bucket"; "baseurl"; "accesskey"; "secretkey"]%string = before ++ k :: after ->
  Forall (provided parameters) before ->
  ¬ provided parameters k ->
  FromParameters parameters
  = (None, Some (errorString ("No " +:+ k +:+ " parameter provided"))).
Proof.
  intros Hsplit Hbefore Hk. rewrite provided_string in Hk.
  apply not_false_is_true in Hk.
  assert (Hb : forall x, x ∈ before ->
             (let (s, ok) := assert_string (parameters !! x) in negb ok || String.eqb s "")
             = false).
  { intros x Hx. apply provided_string. by eapply Forall_forall in Hbefore. }
  unfold FromParameters.
  destruct before as [|b1 before]; simplify_eq/=.
  { destruct (assert_string _) as [s ok]. by rewrite Hk. }
  pose proof (Hb _ (list_elem_of_here _ _)) as H1.
  destruct (assert_string (parameters !! "bucket")) as [s1 ok1]. rewrite H1.
  destruct before as [|b2 before]; simplify_eq/=.
  { destruct (assert_string _) as [s ok]. by rewrite Hk. }
  pose proof (Hb "baseurl"%string ltac:(set_solver)) as H2.
  destruct (assert_string (parameters !! "baseurl")) as [s2 ok2]. rewrite H2.
  destruct before as [|b3 before]; simplify_eq/=.
  { destruct (assert_string _) as [s ok]. by rewrite Hk. }
  pose proof (Hb "accesskey"%string ltac:(set_solver)) as H3.
  destruct (assert_string (parameters !! "accesskey")) as [s3 ok3]. rewrite H3.
  destruct before as [|b4 before]; simplify_eq/=.
  { destruct (assert_string _) as [s ok]. by rewrite Hk. }
  destruct before; simplify_eq/=.
Qed.

Lemma FromParameters_first_missing_sample :
  FromParameters {["bucket" := VString "registry"; "accesskey" := VInt 7]}
  = (None, Some (errorString "No baseurl parameter provided")).
Proof.
  apply (FromParameters_first_missing _ ["bucket"%string] "baseurl"
           ["accesskey"; "secretkey"]%string).
  - reflexivity.
  - repeat constructor. exists "registry"%string.
    split; [vm_compute; reflexivity | discriminate].
  - intros (s & Hs & _). vm_compute in Hs. discriminate.
Defined.

(** ** Calls that only read *)

Lemma read_only_refl w : read_only w w.
Proof. split; [done|]. exists []. by rewrite app_nil_r. Qed.

Lemma read_only_trans w1 w2 w3 : read_only w1 w2 -> read_only w2 w3 -> read_only w1 w3.
Proof.
  intros [Ho1 (e1 & Ht1 & Hf1)] [Ho2 (e2 & Ht2 & Hf2)]. split; [congruence|].
  exists (e1 ++ e2). rewrite Ht2, Ht1, <- app_assoc. split; [done|]. by apply Forall_app.
Qed.

Lemma read_only_log ev w : is_read ev = true -> read_only w (log ev w).
Proof. intros Hev. split; [done|]. exists [ev]. split; [done|]. by constructor. Qed.

Lemma read_only_attempt w : read_only w (attempt w).2.
Proof.
  unfold attempt. destruct (script w); [apply read_only_refl|].
  split; [done|]. exists []. by rewrite app_nil_r.
Qed.

Lemma read_only_bucket_List prefix delimiter marker limit w :
  read_only w (bucket_List prefix delimiter marker limit w).2.
Proof.
  unfold bucket_List, bind, emit.
  apply (read_only_trans _ (log (EvList prefix delimiter marker limit) w));
    [by apply read_only_log|].
  pose proof (read_only_attempt (log (EvList prefix delimiter marker limit) w)) as Ha.
  destruct (attempt _) as [[e|] w1]; [done|].
  unfold world, ret. by destruct (scan _ _ _ _ _ _) as [[? ?] ?].
Qed.

Lemma read_only_bucket_Stat key w : read_only w (bucket_Stat key w).2.
Proof.
  unfold bucket_Stat, bind, emit.
  apply (read_only_trans _ (log (EvStat key) w)); [by apply read_only_log|].
  pose proof (read_only_attempt (log (EvStat key) w)) as Ha.
  destruct (attempt _) as [[e|] w1]; [done|].
  unfold world, ret. by destruct (objects w1 !! key).
Qed.

Lemma read_only_client_Do req w : read_only w (client_Do req w).2.
Proof.
  unfold client_Do, bind, emit.
  apply (read_only_trans _ (log (EvDo req) w)); [by apply read_only_log|].
  pose proof (read_only_attempt (log (EvDo req) w)) as Ha.
  destruct (attempt _) as [[e|] w1]; [done|].
  unfold world, ret.
  destruct (if String.prefix _ _ then _ else _); [destruct (Range req)|]; done.
Qed.

Lemma read_only_Stat d path w : read_only w (Stat d path w).2.
Proof.
  unfold Stat, bind.
  pose proof (read_only_bucket_List (getKey d path) "" "" 1 w) as Hl.
  destruct (bucket_List _ _ _ _ w) as [[[[items prefixes] marker] err] w1].
  destruct err as [e|]; [destruct (decide (e = EOF))|]; destruct items; done.
Qed.

Lemma read_only_ReadStream d path offset w : read_only w (ReadStream d path offset w).2.
Proof.
  unfold ReadStream, bind.
  pose proof (read_only_bucket_Stat (getKey d path) w) as Hs.
  destruct (bucket_Stat _ w) as [[stat err] w1].
  destruct err as [e|]; [done|].
  destruct (offset >=? kodo.EntryFsize stat); [done|].
  pose proof (read_only_attempt w1) as Ha.
  destruct (attempt w1) as [[e|] w2]; [by apply (read_only_trans _ w1)|].
  match goal with |- context [client_Do ?req w2] =>
    pose proof (read_only_client_Do req w2) as Hd;
    destruct (client_Do req w2) as [[resp err] w3]
  end.
  assert (read_only w w3)
    by (apply (read_only_trans _ w1); [done|]; by apply (read_only_trans _ w2)).
  destruct err as [e|]; [by destruct resp|]. destruct resp as [resp|]; [|done].
  by destruct (StatusCode resp =? StatusNotFound).
Qed.

Lemma read_only_GetContent d path w : read_only w (GetContent d path w).2.
Proof.
  unfold GetContent, bind.
  pose proof (read_only_ReadStream d path 0 w) as Hr.
  destruct (ReadStream d path 0 w) as [[rc err] w1].
  destruct err as [e|]; [done|].
  pose proof (read_only_attempt w1) as Ha.
  destruct (attempt w1) as [[e|] w2]; by apply (read_only_trans _ w1).
Qed.

Lemma read_only_List_loop fuel d path rootPrefix marker files directories w :
  match List_loop fuel d path rootPrefix marker files directories w with
  | Returns _ w' | Panics w' => read_only w w'
  | OutOfFuel => True
  end.
Proof.
  revert marker files directories w.
  induction fuel as [|fuel IH]; intros marker files directories w; [done|].
  cbn [List_loop].
  pose proof (read_only_bucket_List (getKey d path) "/" marker listMax w) as Hl.
  destruct (bucket_List _ _ _ _ w) as [[[[items prefixes] next] err] w1].
  destruct (match err with
            | Some e => if decide (e = EOF) then None else Some e
            | None => None
            end); [done|].
  destruct (String.eqb next ""); [done|].
  match goal with |- context [List_loop fuel d path rootPrefix next ?f ?g w1] =>
    specialize (IH next f g w1); destruct (List_loop fuel d path rootPrefix next f g w1)
  end; [by apply (read_only_trans _ w1) | by apply (read_only_trans _ w1) | done].
Qed.

(** X7: [Stat], [ReadStream], [GetContent] and [List] only read: whatever
    fails on the way, every call they make is a listing, a stat or a
    download, and the objects of the bucket are as they were. *)
Theorem reads_leave_the_bucket d path offset fuel w :
  read_only w (Stat d path w).2
  ∧ read_only w (ReadStream d path offset w).2
  ∧ read_only w (GetContent d path w).2
  ∧ match List fuel d path w with
    | Returns _ w' | Panics w' => read_only w w'
    | OutOfFuel => True
    end.
Proof.
  split_and!; [apply read_only_Stat | apply read_only_ReadStream | apply read_only_GetContent |].
  unfold List.
  destruct (if String.eqb path "/" then _ else _); [|apply read_only_refl].
  apply read_only_List_loop.
Qed.

(** ** Lookups and whole objects *)

(** When the key of the path is not stored but some stored key starts
    with it, the lookup reports a directory. *)
Lemma Stat_directory d path w :
  script w = [] ->
  objects w !! getKey d path = None ->
  (exists k, is_Some (objects w !! k) ∧ String.prefix (getKey d path) k = true) ->
  Stat d path w
  = ((Some (directory_info path), None), log (EvList (getKey d path) "" "" 1) w).
Proof.
  intros Hs Hnone (k & [o Ho] & Hp).
  assert (Hin : (k, o) ∈ matching (objects w) (getKey d path) "").
  { apply elem_of_matching. split_and!; [done | done | by left]. }
  destruct (matching (objects w) (getKey d path) "") as [|[k' o'] rest] eqn:E;
    [by apply elem_of_nil in Hin|].
  assert (Hk' : (k', o') ∈ matching (objects w) (getKey d path) "") by (rewrite E; left).
  apply elem_of_matching in Hk' as (Ho' & _ & _).
  assert (Hne : String.eqb (getKey d path) k' = false).
  { apply String.eqb_neq. intros <-. congruence. }
  unfold Stat, bind at 1. rewrite (bucket_List_flat _ "" 1 w Hs). cbv zeta.
  rewrite E. change (page_size 1) with 1%nat. rewrite firstn_cons, take_0.
  destruct (String.eqb (page_marker 1 "" ((k', o') :: rest)) ""); simpl;
    rewrite Hne; reflexivity.
Qed.

(** X8: what [Stat] reports depends on the stored keys that start with
    the key of the path: a file with the size of the object when the key
    itself is stored; a directory when it is not but another stored key
    starts with it; not found when no stored key does. *)
Theorem Stat_reports d path w :
  script w = [] ->
  (forall o, objects w !! getKey d path = Some o ->
     (Stat d path w).1 = (Some (file_info path o), None))
  ∧ (objects w !! getKey d path = None ->
     (exists k, is_Some (objects w !! k) ∧ String.prefix (getKey d path) k = true) ->
     (Stat d path w).1 = (Some (directory_info path), None))
  ∧ ((forall k, is_Some (objects w !! k) -> String.prefix (getKey d path) k = false) ->
     (Stat d path w).1 = (None, Some (PathNotFoundError path))).
Proof.
  intros Hs. split_and!.
  - intros o Ho. by rewrite (Stat_stored d path o w Hs Ho).
  - intros Hnone Hsome. by rewrite (Stat_directory d path w Hs Hnone Hsome).
  - intros Hno. by rewrite (Stat_nothing d path w Hs Hno).
Qed.

Lemma Stat_reports_sample :
  let w := sample_world sample_tree in
  (Stat sample_driver "/foo" w).1 = (Some (file_info "/foo" (sample_object "foo")), None)
  ∧ (Stat sample_driver "/a" w).1 = (Some (directory_info "/a"), None)
  ∧ (Stat sample_driver "/zz" w).1 = (None, Some (PathNotFoundError "/zz")).
Proof.
  intros w. split_and!.
  - apply (Stat_reports sample_driver "/foo" w eq_refl). vm_compute. reflexivity.
  - apply (Stat_reports sample_driver "/a" w eq_refl); [vm_compute; reflexivity|].
    exists "root/a/b"%string. split; [by eexists | reflexivity].
  - apply (Stat_reports sample_driver "/zz" w eq_refl).
    intros k [->|[->| ->]]%sample_tree_keys; reflexivity.
Defined.

(** [PutContent] with nothing failing: one upload call, after which the
    key holds the content. *)
Lemma PutContent_run d path body w :
  script w = [] ->
  PutContent d path body w
  = (None,
     set_objects (<[getKey d path := {| content := body; putTime := now w |}]> (objects w))
       (log (EvPut (getKey d path) body) w)).
Proof.
  intros Hs. destruct w as [m s t n dom]. simpl in *. subst s. reflexivity.
Qed.

(** [ReadStream] of a stored object whose bucket is served under the
    driver's base URL. *)
Lemma ReadStream_stored d path offset o w :
  script w = [] ->
  domain w = BaseURL (params d) ->
  objects w !! getKey d path = Some o ->
  (ReadStream d path offset w).1 = (Some (drop (Z.to_nat offset) (content o)), None).
Proof.
  intros Hs Hdom Hm. destruct w as [m s t n dom]. simpl in *. subst s dom.
  unfold ReadStream, bind, bucket_Stat, bind, emit, attempt, world, ret, log. simpl.
  rewrite Hm. simpl.
  destruct (offset >=? Z.of_nat (length (content o))) eqn:Hoff.
  - apply Z.geb_le in Hoff. simpl. by rewrite drop_ge by lia.
  - rewrite Z.geb_leb in Hoff. apply Z.leb_gt in Hoff.
    unfold client_Do, bind, emit, attempt, world, ret, log, MakePrivateUrl. simpl.
    rewrite prefix_app, drop_app, Hm.
    destruct (offset >? 0) eqn:Hpos; simpl; [done|].
    assert (Z.to_nat offset = 0%nat) as ->
      by (rewrite Z.gtb_ltb in Hpos; apply Z.ltb_ge in Hpos; lia).
    done.
Qed.

Lemma GetContent_stored d path o w :
  script w = [] ->
  domain w = BaseURL (params d) ->
  objects w !! getKey d path = Some o ->
  (GetContent d path w).1 = (Some (content o), None).
Proof.
  intros Hs Hdom Hm.
  pose proof (ReadStream_stored d path 0 o w Hs Hdom Hm) as Hr.
  unfold GetContent, bind.
  assert (Hscript : script (ReadStream d path 0 w).2 = []).
  { destruct w as [m s t n dom]. simpl in *. subst s dom.
    unfold ReadStream, bind, bucket_Stat, bind, emit, attempt, world, ret, log. simpl.
    rewrite Hm. simpl. destruct (0 >=? Z.of_nat (length (content o))); [done|].
    unfold client_Do, bind, emit, attempt, world, ret, log, MakePrivateUrl. simpl.
    by rewrite prefix_app, drop_app, Hm. }
  destruct (ReadStream d path 0 w) as [[rc err] w1]. simpl in *.
  injection Hr as -> ->. unfold attempt. by rewrite Hscript.
Qed.

(** X9: in a bucket served under the driver's base URL, reading a
    stored object from an offset yields its bytes from that offset on: all
    of them for an offset of zero or less, none for an offset at or past
    the end; and [GetContent] returns all of them. *)
Theorem ReadStream_yields_suffix d path offset o w :
  script w = [] ->
  domain w = BaseURL (params d) ->
  objects w !! getKey d path = Some o ->
  (ReadStream d path offset w).1 = (Some (drop (Z.to_nat offset) (content o)), None)
  ∧ (GetContent d path w).1 = (Some (content o), None).
Proof.
  intros Hs Hdom Hm. split; [by apply ReadStream_stored | by apply GetContent_stored].
Qed.

Lemma ReadStream_yields_suffix_sample :
  let w := sample_world {["root/foo" := sample_object "abcdef"]} in
  (ReadStream sample_driver "/foo" 2 w).1 = (Some (bytes "cdef"), None)
  ∧ (GetContent sample_driver "/foo" w).1 = (Some (bytes "abcdef"), None).
Proof.
  intros w.
  apply (ReadStream_yields_suffix sample_driver "/foo" 2 (sample_object "abcdef") w);
    reflexivity.
Defined.

(** X10: reading a path whose key is not stored fails with the not-found
    error of the path, for [ReadStream] at any offset and for
    [GetContent], after the stat call alone. *)
Theorem read_missing_not_found d path offset w :
  script w = [] ->
  objects w !! getKey d path = None ->
  ReadStream d path offset w
  = ((None, Some (PathNotFoundError path)), log (EvStat (getKey d path)) w)
  ∧ GetContent d path w
    = ((None, Some (PathNotFoundError path)), log (EvStat (getKey d path)) w).
Proof.
  intros Hs Hm. destruct w as [m s t n dom]. simpl in *. subst s.
  unfold GetContent, ReadStream, bind, bucket_Stat, bind, emit, attempt, world, ret, log.
  simpl. rewrite Hm. split; reflexivity.
Qed.

Lemma read_missing_not_found_sample :
  let w := sample_world {["root/foo" := sample_object "abc"]} in
  ReadStream sample_driver "/bar" 1 w
  = ((None, Some (PathNotFoundError "/bar")), log (EvStat "root/bar") w)
  ∧ GetContent sample_driver "/bar" w
    = ((None, Some (PathNotFoundError "/bar")), log (EvStat "root/bar") w).
Proof.
  intros w. apply (read_missing_not_found sample_driver "/bar" 1 w); reflexivity.
Defined.

(** X11: in a bucket served under the driver's base URL, what
    [PutContent] stores is what [GetContent] returns and what [Stat]
    sizes, and [PutContent] touches no other key. *)
Theorem PutContent_then_read d path body w :
  script w = [] ->
  domain w = BaseURL (params d) ->
  let w' := (PutContent d path body w).2 in
  (PutContent d path body w).1 = None
  ∧ (GetContent d path w').1 = (Some body, None)
  ∧ (Stat d path w').1
    = (Some {| Path := path; Size := Z.of_nat (length body);
               ModTime := Some (Int64.mul (now w) 100); IsDir := false |}, None)
  ∧ forall k, k <> getKey d path -> objects w' !! k = objects w !! k.
Proof.
  intros Hs Hdom w'. subst w'. rewrite (PutContent_run d path body w Hs). cbn [fst snd].
  set (o := {| content := body; putTime := now w |}).
  set (w' := set_objects _ _).
  assert (Ho : objects w' !! getKey d path = Some o) by apply lookup_insert_eq.
  split_and!.
  - done.
  - by rewrite (GetContent_stored d path o w').
  - by rewrite (Stat_stored d path o w').
  - intros k Hk. by apply lookup_insert_ne.
Qed.

Lemma PutContent_then_read_sample :
  let w := sample_world {["root/bar" := sample_object "old"]} in
  let w' := (PutContent sample_driver "/foo" (bytes "contents") w).2 in
  (GetContent sample_driver "/foo" w').1 = (Some (bytes "contents"), None)
  ∧ objects w' !! "root/bar" = Some (sample_object "old").
Proof.
  intros w w'.
  destruct (PutContent_then_read sample_driver "/foo" (bytes "contents") w eq_refl eq_refl)
    as (_ & Hget & _ & Hother).
  split; [exact Hget|]. subst w'. by rewrite Hother.
Defined.

(** ** Range writes *)

Lemma attempt_objects w : objects (attempt w).2 = objects w.
Proof. unfold attempt. by destruct (script w). Qed.

Lemma qiniurs_PutParts_failed key parts w e :
  (qiniurs_PutParts key parts w).1 = Some e ->
  objects (qiniurs_PutParts key parts w).2 = objects w.
Proof.
  unfold qiniurs_PutParts, bind, emit.
  pose proof (attempt_objects (log (EvPutParts key parts) w)) as Ha.
  destruct (attempt _) as [[e'|] w1]; [done|].
  unfold world, store, ret. simpl in *. by destruct (compose (objects w1) parts).
Qed.

Lemma bucket_PutFile_failed key body w e :
  (bucket_PutFile key body w).1 = Some e ->
  objects (bucket_PutFile key body w).2 = objects w.
Proof.
  unfold bucket_PutFile, put, bind, emit.
  pose proof (attempt_objects (log (EvPutFile key body) w)) as Ha.
  by destruct (attempt _) as [[e'|] w1].
Qed.

Lemma WriteStream_outcome d path offset data w nn err w' :
  WriteStream d path offset data w = ((nn, err), w') ->
  match err with
  | Some _ => nn = 0 ∧ objects w' = objects w
  | None => nn = Z.of_nat (length data)
  end.
Proof.
  unfold WriteStream, bind at 1.
  destruct (read_only_Stat d path w) as [Hstat _].
  destruct (Stat d path w) as [[stat err0] w1]. simpl in Hstat.
  destruct (match err0 with
            | Some e => if String.eqb (Error e) (Error (PathNotFoundError path))
                        then inr true else inl e
            | None => inr false
            end) as [e|whole]; [by intros [= <- <- <-]|].
  unfold bind at 1. pose proof (attempt_objects w1) as H2.
  destruct (attempt w1) as [[e|] w2]; simpl in H2;
    [intros [= <- <- <-]; split; [done | congruence]|].
  unfold bind at 1. pose proof (attempt_objects w2) as H3.
  destruct (attempt w2) as [[e|] w3]; simpl in H3;
    [intros [= <- <- <-]; split; [done | congruence]|].
  unfold bind at 1. pose proof (attempt_objects w3) as H4.
  destruct (attempt w3) as [[e|] w4]; simpl in H4;
    [intros [= <- <- <-]; split; [done | congruence]|].
  destruct whole; cbn [negb]; unfold bind at 1.
  - pose proof (bucket_PutFile_failed (getKey d path) data w4) as Hput.
    destruct (bucket_PutFile _ _ w4) as [[e|] w5]; intros [= <- <- <-]; [|done].
    simpl in *. split; [done|]. rewrite (Hput e eq_refl). congruence.
  - match goal with |- context [qiniurs_PutParts ?k ?ps w4] =>
      pose proof (qiniurs_PutParts_failed k ps w4) as Hput;
      destruct (qiniurs_PutParts k ps w4) as [[e|] w5]; intros [= <- <- <-]; [|done]
    end.
    simpl in *. split; [done|]. rewrite (Hput e eq_refl). congruence.
Qed.

(** X12: a write is all or nothing.  Whatever fails on the way, when
    [WriteStream] returns an error it reports zero bytes and the objects
    of the bucket are as they were (the service applies an upload or a
    compose request wholly or not at all); when it returns none it reports
    the number of bytes the stream held. *)
Theorem WriteStream_all_or_nothing d path offset data w :
  match (WriteStream d path offset data w).1.2 with
  | Some _ =>
      (WriteStream d path offset data w).1.1 = 0
      ∧ objects (WriteStream d path offset data w).2 = objects w
  | None => (WriteStream d path offset data w).1.1 = Z.of_nat (length data)
  end.
Proof.
  destruct (WriteStream d path offset data w) as [[nn err] w'] eqn:E.
  by apply WriteStream_outcome in E.
Qed.

Lemma length_zero_fill (old : list byte) n :
  length (old ++ replicate (n - length old) Byte.x00) = Nat.max (length old) n.
Proof. rewrite length_app, length_replicate. lia. Qed.

Lemma length_write_at old data n :
  length (write_at old data n) = Nat.max (length old) (n + length data).
Proof.
  unfold write_at. rewrite !length_app, length_take, length_zero_fill, length_drop. lia.
Qed.

(** The parts [WriteStream] builds for a stored object compose to the
    object with the data written at the offset. *)
Lemma WriteStream_parts_compose m key o offset data :
  m !! key = Some o ->
  0 <= offset ->
  offset + Z.of_nat (length data) <= Int64.max_int ->
  compose m (WriteStream_parts key offset (Z.of_nat (length data))
               (Z.of_nat (length (content o))) data)
  = inr (write_at (content o) data (Z.to_nat offset)).
Proof.
  intros Hm Hoff Hmax. unfold WriteStream_parts, write_at.
  set (old := content o). set (n := Z.to_nat offset).
  destruct (offset =? 0) eqn:H0.
  { apply Z.eqb_eq in H0. assert (n = 0%nat) as -> by lia. rewrite take_0, app_nil_l.
    destruct (Z.of_nat (length data) <? Z.of_nat (length old)) eqn:Hlt; simpl.
    - apply Z.ltb_lt in Hlt.
      rewrite (part_bytes_tail _ key o _ Hm) by (fold old; lia).
      by rewrite app_nil_r, Nat2Z.id.
    - apply Z.ltb_ge in Hlt. by rewrite (drop_ge old) by lia. }
  apply Z.eqb_neq in H0.
  destruct (offset =? Z.of_nat (length old)) eqn:H1.
  { apply Z.eqb_eq in H1. assert (n = length old) as -> by lia. simpl.
    rewrite (part_bytes_tail _ key o 0 Hm) by lia. change (Z.to_nat 0) with 0%nat.
    rewrite drop_0. fold old. rewrite Nat.sub_diag. simpl replicate.
    rewrite !app_nil_r, firstn_all, (drop_ge old) by lia. by rewrite app_nil_r. }
  apply Z.eqb_neq in H1.
  destruct (offset <? Z.of_nat (length old)) eqn:H2.
  { apply Z.ltb_lt in H2. cbv zeta.
    rewrite Int64_add_exact
      by (unfold Int64.in_range, Int64.min_int, Int64.max_int in *; lia).
    assert (Hn : (n - length old = 0)%nat) by lia. rewrite Hn. simpl replicate.
    rewrite app_nil_r. simpl.
    rewrite (part_bytes_head _ key o offset Hm) by (fold old; lia). fold old n.
    destruct (Z.of_nat (length data) + offset <? Z.of_nat (length old)) eqn:Hlt; simpl.
    - apply Z.ltb_lt in Hlt.
      rewrite (part_bytes_tail _ key o _ Hm) by (fold old; lia). fold old.
      rewrite app_nil_r.
      by assert (Z.to_nat (Z.of_nat (length data) + offset) = (n + length data)%nat) as -> by lia.
    - apply Z.ltb_ge in Hlt. by rewrite (drop_ge old) by lia. }
  apply Z.ltb_ge in H2.
  assert ((offset >? Z.of_nat (length old)) = true) as ->
    by (rewrite Z.gtb_ltb; apply Z.ltb_lt; lia).
  cbv zeta. rewrite Int64_sub_exact
    by (unfold Int64.in_range, Int64.min_int, Int64.max_int in *; lia).
  simpl. rewrite (part_bytes_tail _ key o 0 Hm) by lia. change (Z.to_nat 0) with 0%nat.
  rewrite drop_0. fold old.
  assert (Z.to_nat (offset - Z.of_nat (length old)) = (n - length old)%nat) as -> by lia.
  rewrite (take_ge (old ++ _)) by (rewrite length_zero_fill; lia).
  rewrite (drop_ge old) by lia. by rewrite !app_nil_r, <- !app_assoc.
Qed.

(** [WriteStream] over a stored object, from an offset that is not
    negative, with nothing failing. *)
Lemma WriteStream_run d path offset data o w :
  script w = [] ->
  objects w !! getKey d path = Some o ->
  0 <= offset ->
  offset + Z.of_nat (length data) <= Int64.max_int ->
  exists w',
    WriteStream d path offset data w = ((Z.of_nat (length data), None), w')
    ∧ objects w'
      = <[getKey d path := {| content := write_at (content o) data (Z.to_nat offset);
                              putTime := now w |}]> (objects w)
    ∧ script w' = [] ∧ domain w' = domain w.
Proof.
  intros Hs Hm Hoff Hmax.
  rewrite (WriteStream_stored d path offset data o w Hs Hm). cbv zeta.
  rewrite (WriteStream_parts_compose _ _ o offset data Hm Hoff Hmax).
  eexists. split; [done|]. by destruct w.
Qed.

(** X13: over a stored object, a write at an offset that is not negative
    is a positional write: the bytes before the offset stay (zero bytes
    fill the gap when the offset lies past the end), the data follows,
    then the old bytes past the data; no other key is touched. *)
Theorem WriteStream_positional d path offset data o w :
  script w = [] ->
  objects w !! getKey d path = Some o ->
  0 <= offset ->
  offset + Z.of_nat (length data) <= Int64.max_int ->
  let w' := (WriteStream d path offset data w).2 in
  (WriteStream d path offset data w).1 = (Z.of_nat (length data), None)
  ∧ content <$> objects w' !! getKey d path
    = Some (write_at (content o) data (Z.to_nat offset))
  ∧ Z.of_nat (length (write_at (content o) data (Z.to_nat offset)))
    = Z.max (Z.of_nat (length (content o))) (offset + Z.of_nat (length data))
  ∧ forall k, k <> getKey d path -> objects w' !! k = objects w !! k.
Proof.
  intros Hs Hm Hoff Hmax w'. subst w'.
  destruct (WriteStream_run d path offset data o w Hs Hm Hoff Hmax)
    as (w' & -> & Hobj & _ & _).
  cbn [fst snd]. rewrite Hobj. split_and!.
  - done.
  - by rewrite lookup_insert_eq.
  - rewrite length_write_at. lia.
  - intros k Hk. by apply lookup_insert_ne.
Qed.

Lemma WriteStream_positional_sample :
  let w := sample_world {["root/foo" := sample_object "abc"]} in
  content <$> objects (WriteStream sample_driver "/foo" 5 (bytes "Z") w).2 !! "root/foo"
  = Some (bytes "abc" ++ [Byte.x00; Byte.x00] ++ bytes "Z").
Proof.
  intros w.
  destruct (WriteStream_positional sample_driver "/foo" 5 (bytes "Z")
              (sample_object "abc") w) as (_ & Hc & _).
  - reflexivity.
  - vm_compute. reflexivity.
  - lia.
  - vm_compute. discriminate.
  - etrans; [exact Hc | vm_compute; reflexivity].
Defined.

(** X14: what was written at an offset is read back from that offset,
    and sized.  After a write over a stored object (in a bucket served
    under the driver's base URL), [ReadStream] from the same offset yields
    the data, followed by the old bytes past it, and [Stat] reports a file
    that ends where the longer of the old object and the written span
    ends. *)
Theorem WriteStream_then_read d path offset data o w :
  script w = [] ->
  domain w = BaseURL (params d) ->
  objects w !! getKey d path = Some o ->
  0 <= offset ->
  offset + Z.of_nat (length data) <= Int64.max_int ->
  let w' := (WriteStream d path offset data w).2 in
  (ReadStream d path offset w').1
  = (Some (data ++ drop (Z.to_nat offset + length data) (content o)), None)
  ∧ (Stat d path w').1
    = (Some {| Path := path;
               Size := Z.max (Z.of_nat (length (content o)))
                         (offset + Z.of_nat (length data));
               ModTime := Some (Int64.mul (now w) 100);
               IsDir := false |}, None).
Proof.
  intros Hs Hdom Hm Hoff Hmax w'. subst w'.
  destruct (WriteStream_run d path offset data o w Hs Hm Hoff Hmax)
    as (w' & -> & Hobj & Hs' & Hdom').
  cbn [snd].
  set (o' := {| content := write_at (content o) data (Z.to_nat offset); putTime := now w |}).
  assert (Ho' : objects w' !! getKey d path = Some o')
    by (by rewrite Hobj, lookup_insert_eq).
  split.
  - rewrite (ReadStream_stored d path offset o' w'); [| done | congruence | done].
    cbn [content o']. unfold write_at.
    rewrite drop_app_length'; [done|].
    rewrite length_take, length_zero_fill. lia.
  - rewrite (Stat_stored d path o' w' Hs' Ho'). unfold file_info. cbn [fst content putTime o'].
    rewrite length_write_at. do 3 f_equal. lia.
Qed.

Lemma WriteStream_then_read_sample :
  let w := sample_world {["root/foo" := sample_object "abcdef"]} in
  let w' := (WriteStream sample_driver "/foo" 2 (bytes "XY") w).2 in
  (ReadStream sample_driver "/foo" 2 w').1 = (Some (bytes "XYef"), None)
  ∧ Size <$> (Stat sample_driver "/foo" w').1.1 = Some 6.
Proof.
  intros w w'.
  destruct (WriteStream_then_read sample_driver "/foo" 2 (bytes "XY")
              (sample_object "abcdef") w) as [Hread Hstat];
    [reflexivity | reflexivity | vm_compute; reflexivity | lia | vm_compute; discriminate |].
  split; [exact Hread|]. subst w'. by rewrite Hstat.
Defined.

(** A first write, with nothing stored under the key of the path and
    nothing failing: one upload of the bytes the stream held. *)
Lemma WriteStream_first d path offset data w :
  script w = [] ->
  (forall k, is_Some (objects w !! k) -> String.prefix (getKey d path) k = false) ->
  WriteStream d path offset data w
  = ((Z.of_nat (length data), None), uploaded d path data w).
Proof.
  intros Hs Hno. unfold WriteStream, bind at 1.
  rewrite (Stat_nothing d path w Hs Hno).
  rewrite String.eqb_refl.
  destruct w as [m s t n dom]. simpl in *. subst s. reflexivity.
Qed.

(** X15: a first write stores the bytes of the stream as the whole
    object, whatever offset it names: afterwards (in a bucket served
    under the driver's base URL) [GetContent] returns exactly the bytes
    written, [ReadStream] from that offset returns them without their
    first [offset] bytes, and [Stat] reports their number as the size. *)
Theorem WriteStream_first_then_read d path offset data w :
  script w = [] ->
  domain w = BaseURL (params d) ->
  (forall k, is_Some (objects w !! k) -> String.prefix (getKey d path) k = false) ->
  let w' := (WriteStream d path offset data w).2 in
  (GetContent d path w').1 = (Some data, None)
  ∧ (ReadStream d path offset w').1 = (Some (drop (Z.to_nat offset) data), None)
  ∧ Size <$> (Stat d path w').1.1 = Some (Z.of_nat (length data)).
Proof.
  intros Hs Hdom Hno w'. subst w'. rewrite (WriteStream_first d path offset data w Hs Hno).
  cbn [snd]. set (o := {| content := data; putTime := now w |}).
  assert (Ho : objects (uploaded d path data w) !! getKey d path = Some o)
    by apply lookup_insert_eq.
  assert (Hs' : script (uploaded d path data w) = []) by (by destruct w).
  assert (Hdom' : domain (uploaded d path data w) = BaseURL (params d)) by (by destruct w).
  split_and!.
  - by rewrite (GetContent_stored d path o _ Hs' Hdom' Ho).
  - by rewrite (ReadStream_stored d path offset o _ Hs' Hdom' Ho).
  - by rewrite (Stat_stored d path o _ Hs' Ho).
Qed.

Lemma WriteStream_first_then_read_sample :
  let w' := (WriteStream sample_driver "/foo" 3 (bytes "hello") (sample_world ∅)).2 in
  (GetContent sample_driver "/foo" w').1 = (Some (bytes "hello"), None)
  ∧ (ReadStream sample_driver "/foo" 3 w').1 = (Some (bytes "lo"), None).
Proof.
  intros w'.
  destruct (WriteStream_first_then_read sample_driver "/foo" 3 (bytes "hello")
              (sample_world ∅)) as (Hget & Hread & _); [reflexivity | reflexivity | |].
  - intros k [o Ho]. simpl in Ho. by rewrite lookup_empty in Ho.
  - split; [exact Hget | exact Hread].
Defined.

(** ** Moving *)

Lemma bucket_Stat_objects key w : objects (bucket_Stat key w).2 = objects w.
Proof. apply read_only_bucket_Stat. Qed.

(** A delete call changes nothing or removes its key. *)
Lemma bucket_Delete_outcome key w :
  match (bucket_Delete key w).1 with
  | None => objects (bucket_Delete key w).2 = delete key (objects w)
  | Some _ => objects (bucket_Delete key w).2 = objects w
  end.
Proof.
  unfold bucket_Delete, bind, emit.
  pose proof (attempt_objects (log (EvDelete key) w)) as Ha.
  destruct (attempt _) as [[e|] w1]; [done|].
  unfold world, store, ret. simpl in *. destruct (objects w1 !! key); simpl; congruence.
Qed.

Lemma bucket_Delete_other key w k :
  k <> key -> objects (bucket_Delete key w).2 !! k = objects w !! k.
Proof.
  intros Hk. pose proof (bucket_Delete_outcome key w) as H.
  destruct (bucket_Delete key w).1; rewrite H; [done | by apply lookup_delete_ne].
Qed.

(** A move call changes nothing and fails, or puts the source's object
    at the destination and removes the source. *)
Lemma bucket_Move_outcome src dest w :
  match (bucket_Move src dest w).1 with
  | None =>
      exists o, objects w !! src = Some o
                ∧ objects (bucket_Move src dest w).2 = <[dest := o]> (delete src (objects w))
  | Some _ => objects (bucket_Move src dest w).2 = objects w
  end.
Proof.
  unfold bucket_Move, bind, emit.
  pose proof (attempt_objects (log (EvMove src dest) w)) as Ha.
  destruct (attempt _) as [[e|] w1]; [done|].
  unfold world, store, ret. simpl in *. rewrite Ha.
  destruct (objects w !! src) as [o|]; [|done].
  destruct (objects w !! dest); [done|]. simpl. eauto.
Qed.

(** X16: a move onto the source's own key loses the object.  The
    destination is deleted before the move is asked for, so when the two
    paths have the same key the object is gone by then, and [Move] returns
    the not-found error of the source path. *)
Theorem Move_onto_itself d sourcePath destPath o w :
  script w = [] ->
  objects w !! getKey d sourcePath = Some o ->
  getKey d destPath = getKey d sourcePath ->
  (Move d sourcePath destPath w).1 = Some (PathNotFoundError sourcePath)
  ∧ objects (Move d sourcePath destPath w).2 = delete (getKey d sourcePath) (objects w).
Proof.
  intros Hs Hm Hd. unfold Move. rewrite Hd.
  destruct w as [m s t n dom]. simpl in *. subst s.
  unfold bind, bucket_Stat, bucket_Delete, bucket_Move, bind, emit, attempt, world,
    store, ret, log, set_objects.
  simpl. rewrite Hm. simpl. rewrite Hm. simpl. rewrite lookup_delete_eq. simpl. done.
Qed.

Lemma Move_onto_itself_sample :
  let w := sample_world {["root/foo" := sample_object "abc"]} in
  (Move sample_driver "/foo" "/foo" w).1 = Some (PathNotFoundError "/foo")
  ∧ objects (Move sample_driver "/foo" "/foo" w).2 !! "root/foo" = None.
Proof.
  intros w.
  destruct (Move_onto_itself sample_driver "/foo" "/foo" (sample_object "abc") w)
    as [Herr Hobj]; [reflexivity | vm_compute; reflexivity | reflexivity |].
  split; [exact Herr|]. etrans; [by rewrite Hobj | vm_compute; reflexivity].
Defined.

Lemma Move_outcome d sourcePath destPath o w err w' :
  objects w !! getKey d sourcePath = Some o ->
  getKey d sourcePath <> getKey d destPath ->
  Move d sourcePath destPath w = (err, w') ->
  match err with
  | None => objects w' !! getKey d destPath = Some o
            ∧ objects w' !! getKey d sourcePath = None
  | Some _ => objects w' !! getKey d sourcePath = Some o
  end.
Proof.
  intros Hm Hne. set (src := getKey d sourcePath) in *. set (dest := getKey d destPath) in *.
  unfold Move, bind at 1. fold src dest.
  pose proof (bucket_Stat_objects src w) as H1.
  destruct (bucket_Stat src w) as [[stat e1] w1]. simpl in H1. cbn [snd].
  destruct e1 as [e1|].
  { intros [= <- <-]. rewrite H1.
    by destruct e1 as [code msg| | |]; [simpl; destruct (code =? 612)| | |]. }
  unfold bind at 1.
  pose proof (bucket_Delete_other dest w1 src Hne) as H2.
  destruct (bucket_Delete dest w1) as [e2 w2]. simpl in H2.
  assert (Hsrc : objects w2 !! src = Some o) by (by rewrite H2, H1).
  destruct (match e2 with
            | Some e => if isKeyNotExists e then None else Some e
            | None => None
            end) as [e|].
  { by intros [= <- <-]. }
  unfold bind at 1.
  pose proof (bucket_Move_outcome src dest w2) as H3.
  destruct (bucket_Move src dest w2) as [e3 w3]. simpl in H3.
  intros [= <- <-]. destruct e3 as [e3|].
  - rewrite H3.
    by destruct e3 as [code msg| | |]; [simpl; destruct (code =? 612)| | |].
  - destruct H3 as (o' & Ho' & ->). simpl.
    assert (o' = o) as -> by congruence.
    split; [apply lookup_insert_eq|].
    rewrite lookup_insert_ne by done. apply lookup_delete_eq.
Qed.

(** X17: a move between two different keys never loses the source's
    object, whatever fails on the way: when [Move] returns no error the
    object is at the destination and the source is gone; when it returns
    an error the object is still at the source. *)
Theorem Move_keeps_the_object d sourcePath destPath o w :
  objects w !! getKey d sourcePath = Some o ->
  getKey d sourcePath <> getKey d destPath ->
  match (Move d sourcePath destPath w).1 with
  | None =>
      objects (Move d sourcePath destPath w).2 !! getKey d destPath = Some o
      ∧ objects (Move d sourcePath destPath w).2 !! getKey d sourcePath = None
  | Some _ => objects (Move d sourcePath destPath w).2 !! getKey d sourcePath = Some o
  end.
Proof.
  intros Hm Hne. destruct (Move d sourcePath destPath w) as [err w'] eqn:E.
  by apply (Move_outcome d sourcePath destPath o w err w' Hm Hne).
Qed.

Lemma Move_keeps_the_object_sample :
  let w := set_script [None; None; Some (errorString "timeout")]
             (sample_world (<["root/foo" := sample_object "new"]>
                              {["root/bar" := sample_object "old"]})) in
  (Move sample_driver "/foo" "/bar" w).1 = Some (errorString "timeout")
  ∧ objects (Move sample_driver "/foo" "/bar" w).2 !! "root/foo" = Some (sample_object "new").
Proof.
  intros w.
  assert (Herr : (Move sample_driver "/foo" "/bar" w).1 = Some (errorString "timeout"))
    by (vm_compute; reflexivity).
  split; [exact Herr|].
  pose proof (Move_keeps_the_object sample_driver "/foo" "/bar" (sample_object "new") w) as H.
  rewrite Herr in H.
  apply H; [vm_compute; reflexivity | vm_compute; discriminate].
Defined.

(** [Move] between two different keys with the source stored and
    nothing failing. *)
Lemma Move_run d sourcePath destPath o w :
  script w = [] ->
  objects w !! getKey d sourcePath = Some o ->
  getKey d sourcePath <> getKey d destPath ->
  exists w',
    Move d sourcePath destPath w = (None, w')
    ∧ objects w'
      = <[getKey d destPath := o]>
          (delete (getKey d sourcePath) (delete (getKey d destPath) (objects w)))
    ∧ script w' = [] ∧ domain w' = domain w.
Proof.
  intros Hs Hm Hne. destruct w as [m s t n dom]. simpl in *. subst s.
  unfold Move, bind, bucket_Stat, bind, emit, attempt, world, ret, log. simpl.
  rewrite Hm. simpl.
  unfold bucket_Delete, bucket_Move, bind, emit, attempt, world, store, ret, log,
    set_objects. simpl.
  destruct (m !! getKey d destPath) as [o'|] eqn:Hd; simpl.
  - rewrite lookup_delete_ne by done. rewrite Hm, lookup_delete_eq. simpl.
    eexists. split; [done|]. done.
  - rewrite Hm, Hd. simpl. eexists. split; [done|]. simpl.
    by rewrite (delete_id m (getKey d destPath)).
Qed.

(** X18: what is moved is read at the destination and no longer at the
    source: after a move between two different keys (in a bucket served
    under the driver's base URL), [GetContent] of the destination returns
    the bytes the source held, whatever the destination held before, and
    [GetContent] of the source reports that the path is not found. *)
Theorem Move_then_read d sourcePath destPath o w :
  script w = [] ->
  domain w = BaseURL (params d) ->
  objects w !! getKey d sourcePath = Some o ->
  getKey d sourcePath <> getKey d destPath ->
  let w' := (Move d sourcePath destPath w).2 in
  (Move d sourcePath destPath w).1 = None
  ∧ (GetContent d destPath w').1 = (Some (content o), None)
  ∧ (GetContent d sourcePath w').1 = (None, Some (PathNotFoundError sourcePath)).
Proof.
  intros Hs Hdom Hm Hne w'. subst w'.
  destruct (Move_run d sourcePath destPath o w Hs Hm Hne) as (w' & -> & Hobj & Hs' & Hdom').
  cbn [fst snd]. split_and!.
  - done.
  - rewrite (GetContent_stored d destPath o w'); [done | done | congruence |].
    by rewrite Hobj, lookup_insert_eq.
  - destruct w' as [m' s' t' n' dom']. simpl in *. subst s' m'.
    unfold GetContent, ReadStream, bind, bucket_Stat, bind, emit, attempt, world, ret, log.
    simpl. rewrite lookup_insert_ne by done. by rewrite lookup_delete_eq.
Qed.

Lemma Move_then_read_sample :
  let w := sample_world (<["root/foo" := sample_object "new"]>
                           {["root/bar" := sample_object "old"]}) in
  let w' := (Move sample_driver "/foo" "/bar" w).2 in
  (GetContent sample_driver "/bar" w').1 = (Some (bytes "new"), None)
  ∧ (GetContent sample_driver "/foo" w').1 = (None, Some (PathNotFoundError "/foo")).
Proof.
  intros w w'.
  destruct (Move_then_read sample_driver "/foo" "/bar" (sample_object "new") w)
    as (_ & Hdest & Hsrc);
    [reflexivity | reflexivity | vm_compute; reflexivity | vm_compute; discriminate |].
  split; [exact Hdest | exact Hsrc].
Defined.

(** ** Deleting *)

Lemma Delete_items_confined items w k :
  Forall (fun item => kodo.Key item <> k) items ->
  objects (Delete_items items w).2 !! k = objects w !! k.
Proof.
  revert w. induction items as [|item items IH]; intros w Hall; [done|].
  apply Forall_cons in Hall as [Hk Hall].
  cbn [Delete_items]. unfold bind.
  pose proof (bucket_Delete_other (kodo.Key item) w k ltac:(done)) as Hd.
  destruct (bucket_Delete (kodo.Key item) w) as [[e|] w1]; simpl in Hd.
  - destruct (isKeyNotExists e); [by rewrite IH | done].
  - by rewrite IH.
Qed.

(** The items of a page are stored keys that start with the prefix. *)
Lemma bucket_List_items prefix delimiter marker limit w :
  Forall (fun item => String.prefix prefix (kodo.Key item) = true)
    (bucket_List prefix delimiter marker limit w).1.1.1.1.
Proof.
  unfold bucket_List, bind, emit.
  destruct (attempt _) as [[e|] w1]; [by constructor|].
  unfold world, ret.
  pose proof (scan_sound prefix delimiter (page_size limit) None ""
                (matching (objects w1) prefix marker)) as Hs.
  destruct (scan _ _ _ _ _ _) as [[items prefixes] next]. simpl.
  destruct Hs as (Hi & _ & _). apply Forall_forall.
  intros item ([k o] & Hko & -> & _)%Hi.
  by apply elem_of_matching in Hko as (_ & ? & _).
Qed.

Lemma Delete_loop_confined fuel d path marker cnt w k :
  String.prefix (getKey d path) k = false ->
  match Delete_loop fuel d path marker cnt w with
  | Returns _ w' | Panics w' => objects w' !! k = objects w !! k
  | OutOfFuel => True
  end.
Proof.
  intros Hk. revert marker cnt w.
  induction fuel as [|fuel IH]; intros marker cnt w; [done|].
  cbn [Delete_loop].
  destruct (read_only_bucket_List (getKey d path) "" marker listMax w) as [Hl _].
  pose proof (bucket_List_items (getKey d path) "" marker listMax w) as Hitems.
  destruct (bucket_List _ _ _ _ w) as [[[[items prefixes] next] err] w1].
  simpl in Hl, Hitems.
  destruct (match err with
            | Some e => if decide (e = EOF) then None else Some e
            | None => None
            end) as [e|]; [by rewrite Hl|].
  destruct (Int64.add cnt (Z.of_nat (length items)) =? 0); [by rewrite Hl|].
  assert (Hd : objects (Delete_items items w1).2 !! k = objects w !! k).
  { rewrite Delete_items_confined, Hl; [done|].
    eapply Forall_impl; [exact Hitems|]. simpl. intros item Hp <-. congruence. }
  destruct (Delete_items items w1) as [[e|] w2]; simpl in Hd; [done|].
  destruct (String.eqb next ""); [done|].
  specialize (IH next (Int64.add cnt (Z.of_nat (length items))) w2).
  destruct (Delete_loop fuel d path next _ w2); [congruence | congruence | done].
Qed.

(** X19: [Delete] is confined to the keys that start with the key of the
    path: whatever fails on the way and however many pages it takes, an
    object under any other key is stored afterwards as it was before. *)
Theorem Delete_is_confined d path fuel w r w' k :
  Delete fuel d path w = Returns r w' ->
  String.prefix (getKey d path) k = false ->
  objects w' !! k = objects w !! k.
Proof.
  intros Hrun Hk. pose proof (Delete_loop_confined fuel d path "" 0 w k Hk) as H.
  unfold Delete in Hrun. by rewrite Hrun in H.
Qed.

Lemma Delete_is_confined_sample :
  exists w',
    Delete 4 sample_driver "/a"
      (set_script [None; None; Some (errorString "timeout")] (sample_world sample_tree))
    = Returns (Some (errorString "timeout")) w'
    ∧ objects w' !! "root/foo" = Some (sample_object "foo").
Proof.
  eexists. split; [vm_compute; reflexivity|].
  etrans.
  - apply (Delete_is_confined sample_driver "/a" 4
             (set_script [None; None; Some (errorString "timeout")]
                (sample_world sample_tree))
             (Some (errorString "timeout")));
      [vm_compute; reflexivity | reflexivity].
  - vm_compute. reflexivity.
Defined.

(** ** Listing *)

Lemma List_unfold fuel d path w :
  path <> "" ->
  List fuel d path w = List_loop fuel d (listing_path path) (root_prefix d) "" [] [] w.
Proof.
  intros Hp. unfold List, listing_path, root_prefix.
  destruct (String.eqb path "/"); [done|].
  destruct (GoStrings.last_byte path) as [c|] eqn:E; [|by apply last_byte_None in E].
  by destruct (Ascii.eqb c "/").
Qed.

Lemma listing_path_nonempty path : path <> "" -> listing_path path <> "".
Proof.
  intros Hp. unfold listing_path. destruct (String.eqb path "/"); [done|].
  destruct (GoStrings.last_byte path) as [c|]; [|done].
  destruct (Ascii.eqb c "/"); [done|]. by destruct path.
Qed.

Lemma List_loop_no_panic fuel d path rootPrefix marker files directories w w' :
  List_loop fuel d path rootPrefix marker files directories w <> Panics w'.
Proof.
  revert marker files directories w.
  induction fuel as [|fuel IH]; intros marker files directories w; [done|].
  cbn [List_loop].
  destruct (bucket_List _ _ _ _ w) as [[[[items prefixes] next] err] w1].
  destruct (match err with
            | Some e => if decide (e = EOF) then None else Some e
            | None => None
            end); [done|].
  destruct (String.eqb next ""); [done | apply IH].
Qed.

(** X20: [List] of the empty path panics (it indexes the last byte of
    the path), and this is the only path on which it does. *)
Theorem List_panics_on_empty_path fuel d path w :
  (exists w', List fuel d path w = Panics w') <-> path = "".
Proof.
  split.
  - intros [w' Hrun]. destruct (decide (path = "")) as [|Hp]; [done|].
    rewrite (List_unfold fuel d path w Hp) in Hrun. by apply List_loop_no_panic in Hrun.
  - intros ->. by exists w.
Qed.

(** With nothing stored under the listed path, [List] lists once and
    returns nothing. *)
Lemma List_nothing d path fuel w :
  script w = [] ->
  path <> "" ->
  (0 < fuel)%nat ->
  (forall k, is_Some (objects w !! k) ->
             String.prefix (getKey d (listing_path path)) k = false) ->
  List fuel d path w
  = Returns ([], None) (log (EvList (getKey d (listing_path path)) "/" "" listMax) w).
Proof.
  intros Hs Hp Hfuel Hno. rewrite (List_unfold fuel d path w Hp).
  destruct fuel as [|fuel]; [lia|]. cbn [List_loop].
  rewrite (bucket_List_page _ "/" "" listMax w Hs).
  assert (E : matching (objects w) (getKey d (listing_path path)) "" = []).
  { destruct (matching _ _ _) as [|[k o] rest] eqn:E; [done|].
    assert (Hin : (k, o) ∈ matching (objects w) (getKey d (listing_path path)) "")
      by (rewrite E; left).
    apply elem_of_matching in Hin as (Hm & Hk & _).
    rewrite Hno in Hk by eauto. done. }
  rewrite E. reflexivity.
Qed.

(** X21: [List] of a path under which nothing is stored returns an empty
    list and no error after one listing call, where [Stat] and [Delete]
    report that the path is not found. *)
Theorem List_of_nothing d path fuel w :
  script w = [] ->
  path <> "" ->
  (0 < fuel)%nat ->
  (forall k, is_Some (objects w !! k) ->
             String.prefix (getKey d (listing_path path)) k = false) ->
  List fuel d path w
  = Returns ([], None) (log (EvList (getKey d (listing_path path)) "/" "" listMax) w).
Proof. apply List_nothing. Qed.

Lemma List_of_nothing_sample :
  List 1 sample_driver "/zz" (sample_world sample_tree)
  = Returns ([], None) (log (EvList "root/zz/" "/" "" listMax) (sample_world sample_tree)).
Proof.
  apply (List_of_nothing sample_driver "/zz" 1 (sample_world sample_tree));
    [reflexivity | discriminate | lia |].
  intros k [->|[->| ->]]%sample_tree_keys; reflexivity.
Defined.

(** *** The key of an entry *)

Lemma through_slash s :
  match GoStrings.through s "/" with
  | None => slash_free s = true
  | Some t => exists u r, t = u +:+ "/" ∧ s = t +:+ r ∧ slash_free u = true
  end.
Proof.
  induction s as [|c s IH]; [done|]. cbn [GoStrings.through String.prefix].
  assert (Hnil : String.prefix "" s = true) by (by destruct s).
  destruct (ascii_dec "/" c) as [<-|Hc].
  - rewrite Hnil. exists ""%string, s. done.
  - assert (Hc' : Ascii.eqb c "/" = false) by (apply Ascii.eqb_neq; congruence).
    destruct (GoStrings.through s "/") as [t|]; simpl.
    + destruct IH as (u & r & -> & Hs & Hu). exists (String c u), r.
      rewrite !app_cons. split_and!; [done | by rewrite <- Hs |].
      cbn [slash_free]. by rewrite Hc'.
    + cbn [slash_free]. by rewrite Hc', IH.
Qed.

Lemma slash_free_no_leading s : slash_free s = true -> String.prefix "/" s = false.
Proof.
  destruct s as [|c s]; [done|]. cbn [slash_free String.prefix].
  intros [Hc _]%andb_true_iff. apply negb_true_iff, Ascii.eqb_neq in Hc.
  destruct (ascii_dec "/" c); [congruence | done].
Qed.

Lemma TrimLeft_id s : String.prefix "/" s = false -> GoStrings.TrimLeft s "/" = s.
Proof.
  destruct s as [|c s]; [done|]. cbn [String.prefix GoStrings.TrimLeft GoStrings.contains_byte].
  destruct (ascii_dec "/" c) as [<-|Hc]; [by destruct s|]. intros _.
  assert (Ascii.eqb "/" c = false) as -> by (by apply Ascii.eqb_neq). done.
Qed.

Lemma no_leading_app a b :
  String.prefix "/" a = false -> (a = "" -> String.prefix "/" b = false) ->
  String.prefix "/" (a +:+ b) = false.
Proof.
  destruct a as [|c a]; [intros _ Hb; by apply Hb|]. rewrite app_cons.
  cbn [String.prefix]. destruct (ascii_dec "/" c); [|done]. intros H. by destruct a.
Qed.

Lemma root_is_prefix d x : String.prefix (getKey d "") (getKey d x) = true.
Proof.
  destruct (decide (getKey d "" = "")) as [->|Hr]; [by destruct (getKey d x)|].
  rewrite (getKey_rooted d x Hr). apply prefix_app.
Qed.

(** In a key that starts with the root's key, [List] puts the root
    prefix in place of the root's key. *)
Lemma replace_root d s :
  String.prefix (getKey d "") s = true ->
  GoStrings.Replace s (getKey d "") (root_prefix d)
  = root_prefix d +:+ GoStrings.drop (String.length (getKey d "")) s.
Proof. intros Hp. destruct s; cbn [GoStrings.Replace]; by rewrite Hp. Qed.

Lemma prefix_app_r p a b : String.prefix p a = true -> String.prefix p (a +:+ b) = true.
Proof. intros Ha%prefix_split. rewrite Ha, app_assoc_str. apply prefix_app. Qed.

Lemma drop_app_prefix p a b :
  String.prefix p a = true ->
  GoStrings.drop (String.length p) (a +:+ b) = GoStrings.drop (String.length p) a +:+ b.
Proof.
  intros Ha%prefix_split. rewrite Ha at 1. by rewrite app_assoc_str, drop_app.
Qed.

(** The key of the entry made of a key that starts with the key of the
    listed path and goes on without a separator is that key. *)
Lemma entry_key d q name :
  slash_free name = true ->
  getKey d (GoStrings.Replace (getKey d q +:+ name) (getKey d "") (root_prefix d))
  = getKey d q +:+ name.
Proof.
  intros Hname. rewrite replace_root by apply prefix_app_r, root_is_prefix.
  unfold root_prefix. destruct (String.eqb_spec (getKey d "") "") as [Hr|Hr].
  - rewrite Hr. cbn [String.length GoStrings.drop].
    rewrite (getKey_unrooted d _ Hr). rewrite app_cons, app_empty_l.
    cbn [GoStrings.TrimLeft GoStrings.contains_byte]. rewrite Ascii.eqb_refl.
    apply TrimLeft_id.
    apply no_leading_app; [unfold getKey; apply TrimLeft_no_leading|].
    intros _. by apply slash_free_no_leading.
  - rewrite app_empty_l. rewrite (getKey_rooted d q Hr) at 1.
    rewrite app_assoc_str, drop_app. rewrite (getKey_rooted d _ Hr).
    by rewrite <- app_assoc_str, <- (getKey_rooted d q Hr).
Qed.

Lemma file_entry_key d q k :
  String.prefix (getKey d q) k = true ->
  common_prefix (getKey d q) "/" k = None ->
  exists name, slash_free name = true ∧ k = getKey d q +:+ name
               ∧ getKey d (file_entry d (root_prefix d) k) = k.
Proof.
  intros Hk Hcp. unfold common_prefix in Hcp. simpl String.eqb in Hcp. cbv iota in Hcp.
  apply prefix_split in Hk.
  remember (GoStrings.drop (String.length (getKey d q)) k) as name eqn:Hn. clear Hn.
  pose proof (through_slash name) as Ht.
  destruct (GoStrings.through name "/"); [done|].
  exists name. subst k. split_and!; [done | done |]. unfold file_entry. by apply entry_key.
Qed.

Lemma directory_entry_key d q k cp :
  String.prefix (getKey d q) k = true ->
  common_prefix (getKey d q) "/" k = Some cp ->
  exists name r, slash_free name = true
                 ∧ k = (getKey d q +:+ name) +:+ String "/" r
                 ∧ GoStrings.TrimSuffix cp "/" = getKey d q +:+ name
                 ∧ getKey d (directory_entry d (root_prefix d) cp) = getKey d q +:+ name.
Proof.
  intros Hk Hcp. unfold common_prefix in Hcp. simpl String.eqb in Hcp. cbv iota in Hcp.
  apply prefix_split in Hk.
  remember (GoStrings.drop (String.length (getKey d q)) k) as rest eqn:Hn. clear Hn.
  pose proof (through_slash rest) as Ht.
  destruct (GoStrings.through rest "/") as [t|]; [|done]. injection Hcp as <-.
  destruct Ht as (u & r & -> & -> & Hu). exists u, r.
  assert (Htrim : GoStrings.TrimSuffix (getKey d q +:+ u +:+ "/") "/" = getKey d q +:+ u)
    by (by rewrite <- app_assoc_str, TrimSuffix_slash).
  split_and!; [done | | done |].
  - rewrite Hk. by rewrite !app_assoc_str.
  - unfold directory_entry. rewrite Htrim. by apply entry_key.
Qed.



(** *** Nothing is left out *)

Lemma sorted_head_strict (ko : string * Object) kos :
  StronglySorted key_le (ko :: kos) ->
  NoDup (ko :: kos).*1 ->
  Forall (fun x => strict String.le ko.1 x.1) kos.
Proof.
  intros [_ Hall]%StronglySorted_inv Hnd.
  rewrite fmap_cons in Hnd. apply NoDup_cons in Hnd as [Hnin _].
  apply Forall_forall. intros x Hx.
  assert (Hle : String.le ko.1 x.1) by (by eapply Forall_forall in Hall).
  split; [done|]. intros Hge. destruct Hnin.
  assert (ko.1 = x.1) as -> by (by apply (anti_symm String.le)).
  by apply list_elem_of_fmap_2.
Qed.

(** Every object a page is made from is an item of the page, or lies
    under one of its common prefixes (or the one reported last), or comes
    after the key its marker names. *)
Lemma scan_covers prefix delimiter n prev lastk kos ko :
  StronglySorted key_le kos ->
  NoDup kos.*1 ->
  (n <> 0%nat ∧ prev = None) ∨ Forall (fun x => strict String.le lastk x.1) kos ->
  ko ∈ kos ->
  let '(items, prefixes, marker) := scan prefix delimiter n prev lastk kos in
  (common_prefix prefix delimiter ko.1 = None ∧ list_item ko ∈ items)
  ∨ (exists cp, common_prefix prefix delimiter ko.1 = Some cp
                ∧ (cp ∈ prefixes ∨ prev = Some cp))
  ∨ (exists l, marker = encode_marker l ∧ strict String.le l ko.1).
Proof.
  revert n prev lastk. induction kos as [|x kos IH]; intros n prev lastk Hs Hnd Hstart Hin;
    [by apply elem_of_nil in Hin|].
  pose proof (sorted_head_strict x kos Hs Hnd) as Hrest.
  apply StronglySorted_inv in Hs as [Hs _].
  rewrite fmap_cons in Hnd. apply NoDup_cons in Hnd as [_ Hnd].
  assert (Hstop : n = 0%nat ->
            exists l, encode_marker lastk = encode_marker l ∧ strict String.le l ko.1).
  { intros ->. destruct Hstart as [[? _]|Hall]; [done|].
    exists lastk. split; [done|]. by eapply Forall_forall in Hall. }
  cbn [scan]. destruct (common_prefix prefix delimiter x.1) as [cp|] eqn:Hcp.
  - destruct (decide (prev = Some cp)) as [->|Hprev].
    + specialize (IH n (Some cp) x.1 Hs Hnd (or_intror Hrest)).
      apply elem_of_cons in Hin as [->|Hin].
      * destruct (scan _ _ _ _ _ _) as [[items prefixes] marker].
        right. left. exists cp. split; [done | by right].
      * by apply IH.
    + destruct n as [|n]; [right; right; by apply Hstop|].
      specialize (IH n (Some cp) x.1 Hs Hnd (or_intror Hrest)).
      destruct (scan _ _ _ _ _ _) as [[items prefixes] marker].
      apply elem_of_cons in Hin as [->|Hin].
      * right. left. exists cp. split; [done|]. left. left.
      * destruct (IH Hin) as [[? ?]|[(cp' & ? & [?|[= <-]])|?]].
        -- by left.
        -- right. left. exists cp'. split; [done|]. left. by right.
        -- right. left. exists cp. split; [done|]. left. left.
        -- by right; right.
  - destruct n as [|n]; [right; right; by apply Hstop|].
    specialize (IH n None x.1 Hs Hnd (or_intror Hrest)).
    destruct (scan _ _ _ _ _ _) as [[items prefixes] marker].
    apply elem_of_cons in Hin as [->|Hin].
    + left. split; [done | left].
    + destruct (IH Hin) as [[? ?]|[(cp' & ? & [?|?])|?]].
      * left. split; [done | by right].
      * right. left. exists cp'. split; [done | by left].
      * done.
      * by right; right.
Qed.

(** With iterations to spare for every page, the loop returns, keeps
    what was gathered before, and gathers an entry for every object the
    listing still had to report. *)
Lemma List_loop_complete d path rootPrefix fuel marker files directories w :
  script w = [] ->
  (length (matching (objects w) (getKey d path) marker) < fuel)%nat ->
  exists entries w',
    List_loop fuel d path rootPrefix marker files directories w = Returns (entries, None) w'
    ∧ (forall e, e ∈ files ∨ e ∈ directories -> e ∈ entries)
    ∧ forall k o, (k, o) ∈ matching (objects w) (getKey d path) marker ->
        (common_prefix (getKey d path) "/" k = None
         ∧ file_entry d rootPrefix k ∈ entries)
        ∨ (exists cp, common_prefix (getKey d path) "/" k = Some cp
                      ∧ directory_entry d rootPrefix cp ∈ entries).
Proof.
  revert marker files directories w.
  induction fuel as [|fuel IH]; intros marker files directories w Hs Hfuel; [lia|].
  set (key := getKey d path) in *.
  set (kos := matching (objects w) key marker) in *.
  cbn [List_loop]. fold key. rewrite (bucket_List_page key "/" marker listMax w Hs).
  rewrite page_size_listMax. fold kos.
  pose proof (scan_marker key "/" 999 kos) as Hmark.
  assert (Hcov : forall ko, ko ∈ kos ->
            let '(items, prefixes, next) := scan key "/" 1000 None "" kos in
            (common_prefix key "/" ko.1 = None ∧ list_item ko ∈ items)
            ∨ (exists cp, common_prefix key "/" ko.1 = Some cp
                          ∧ (cp ∈ prefixes ∨ None = Some cp))
            ∨ (exists l, next = encode_marker l ∧ strict String.le l ko.1)).
  { intros ko Hko. apply scan_covers; [apply matching_sorted | apply matching_NoDup | | done].
    left. split; [lia | done]. }
  destruct (scan key "/" 1000 None "" kos) as [[items prefixes] next].
  specialize (Hmark items prefixes next eq_refl).
  set (w1 := log (EvList key "/" marker listMax) w).
  assert (Herr : match (if String.eqb next "" then Some EOF else None) with
                 | Some e => if decide (e = EOF) then None else Some e
                 | None => None
                 end = None) by (by destruct (String.eqb next "")).
  rewrite Herr. clear Herr.
  set (files' := files ++ _). set (directories' := directories ++ _).
  assert (Hpage : forall k o, (k, o) ∈ kos ->
            (common_prefix key "/" k = None ∧ file_entry d rootPrefix k ∈ files')
            ∨ (exists cp, common_prefix key "/" k = Some cp
                          ∧ directory_entry d rootPrefix cp ∈ directories')
            ∨ (exists l, next = encode_marker l ∧ strict String.le l k)).
  { intros k o Hko. destruct (Hcov (k, o) Hko) as [[Hcp Hitem]|[(cp & Hcp & [Hin|?])|?]];
      [| | done |].
    - left. split; [done|]. apply elem_of_app. right.
      by apply (list_elem_of_fmap_2
                  (fun item => GoStrings.Replace (kodo.Key item) (getKey d "") rootPrefix)
                  _ (list_item (k, o))).
    - right. left. exists cp. split; [done|]. apply elem_of_app. right.
      by apply (list_elem_of_fmap_2
                  (fun p => GoStrings.Replace (GoStrings.TrimSuffix p "/") (getKey d "")
                              rootPrefix) _ cp).
    - by right; right. }
  destruct Hmark as [->|(l & -> & Hl)].
  - simpl. eexists _, _. split; [done|]. split.
    + intros e [He|He]; apply elem_of_app; [left | right]; apply elem_of_app; by left.
    + intros k o Hko. destruct (Hpage k o Hko) as [[? ?]|[(cp & ? & ?)|(l & Hl & _)]].
      * left. split; [done|]. apply elem_of_app. by left.
      * right. exists cp. split; [done|]. apply elem_of_app. by right.
      * done.
  - rewrite encode_marker_nonempty.
    destruct (IH (encode_marker l) files' directories' w1) as (entries & w' & Hrun & Hkeep & Hnew).
    { by destruct w. }
    { assert (objects w1 = objects w) as -> by (by destruct w).
      apply matching_shrinks in Hl. fold key kos in Hl. fold key. lia. }
    exists entries, w'. split; [done|]. split.
    + intros e [He|He]; apply Hkeep; [left | right]; apply elem_of_app; by left.
    + intros k o Hko. destruct (Hpage k o Hko) as [[? ?]|[(cp & ? & ?)|(l' & [= <-] & Hlk)]].
      * left. split; [done|]. apply Hkeep. by left.
      * right. exists cp. split; [done|]. apply Hkeep. by right.
      * apply (Hnew k o). fold key.
        assert (objects w1 = objects w) as -> by (by destruct w).
        apply elem_of_matching in Hko as (? & ? & ?).
        apply elem_of_matching. split_and!; [done | done |].
        by apply after_encode_marker.
Qed.

(** X23: [List] leaves nothing out: every stored key that starts with
    the key of the listed path is the key of an entry, or lies under the
    directory an entry names, however many pages the listing takes. *)
Theorem List_is_complete d path fuel w :
  script w = [] ->
  path <> "" ->
  (size (objects w) < fuel)%nat ->
  exists entries w',
    List fuel d path w = Returns (entries, None) w'
    ∧ forall k, is_Some (objects w !! k) ->
                String.prefix (getKey d (listing_path path)) k = true ->
                exists e, e ∈ entries ∧ stands_for d e k.
Proof.
  intros Hs Hp Hfuel. rewrite (List_unfold fuel d path w Hp).
  destruct (List_loop_complete d (listing_path path) (root_prefix d) fuel "" [] [] w)
    as (entries & w' & Hrun & _ & Hall); [done | |].
  { pose proof (matching_length (objects w) (getKey d (listing_path path)) ""). lia. }
  exists entries, w'. split; [done|]. intros k [o Ho] Hk.
  destruct (Hall k o) as [[Hcp He]|(cp & Hcp & He)].
  { apply elem_of_matching. split_and!; [done | done | by left]. }
  - exists (file_entry d (root_prefix d) k). split; [done|]. left.
    by destruct (file_entry_key d _ k Hk Hcp) as (_ & _ & _ & ->).
  - exists (directory_entry d (root_prefix d) cp). split; [done|]. right.
    destruct (directory_entry_key d _ k cp Hk Hcp) as (name & r & _ & Hkey & _ & ->).
    rewrite Hkey. change (String "/" r) with ("/" +:+ r).
    rewrite <- app_assoc_str. apply prefix_app.
Qed.

Lemma List_is_complete_sample :
  exists entries w',
    List 4 sample_driver "/" (sample_world sample_tree) = Returns (entries, None) w'
    ∧ forall k, is_Some (sample_tree !! k) -> String.prefix "root/" k = true ->
                exists e, e ∈ entries ∧ stands_for sample_driver e k.
Proof.
  apply (List_is_complete sample_driver "/" 4 (sample_world sample_tree));
    [reflexivity | discriminate | vm_compute; lia].
Defined.

(** *** Entries are paths *)

Lemma segments_prefix slash a r :
  segments slash (a +:+ String "/" r) = true ->
  (a = "" -> slash = false) ∧ (a <> "" -> segments slash a = true).
Proof.
  revert slash. induction a as [|c a IH]; intros slash.
  - rewrite app_empty_l. cbn [segments]. rewrite Ascii.eqb_refl.
    destruct slash; [done|]. by split.
  - rewrite app_cons. cbn [segments]. intros Hs. split; [done|]. intros _.
    destruct (Ascii.eqb c "/").
    + destruct slash; [done|]. destruct (IH true Hs) as [Hnil Hok].
      destruct a as [|c' a]; [by specialize (Hnil eq_refl)|]. by apply Hok.
    + destruct (IH false Hs) as [_ Hok].
      destruct a as [|c' a]; [done|]. by apply Hok.
Qed.

(** What comes before a separator of a well-formed path is a well-formed
    path. *)
Lemma path_ok_parent a r : path_ok (a +:+ String "/" r) = true -> a <> "" -> path_ok a = true.
Proof.
  destruct a as [|c a]; [done|]. rewrite app_cons. unfold path_ok.
  intros [Hc Hs]%andb_true_iff _. rewrite Hc. cbn [andb].
  destruct (segments_prefix true a r Hs) as [Hnil Hok].
  destruct a as [|c' a]; [by specialize (Hnil eq_refl)|]. by apply Hok.
Qed.

(** The entry made of the key of a well-formed path is that path. *)
Lemma entry_of_path d p :
  path_ok p = true ->
  GoStrings.Replace (getKey d p) (getKey d "") (root_prefix d) = p.
Proof.
  intros Hp. rewrite replace_root by apply root_is_prefix.
  unfold root_prefix. destruct (String.eqb_spec (getKey d "") "") as [Hr|Hr].
  - rewrite Hr. cbn [String.length GoStrings.drop].
    rewrite (getKey_unrooted d p Hr), app_cons, app_empty_l. by apply TrimLeft_path_ok.
  - by rewrite (getKey_rooted d p Hr), drop_app, app_empty_l.
Qed.

(** X24: with stored keys that are the keys of well-formed paths, every
    entry [List] returns is a well-formed path, under a root directory
    and under none; this is what [TestEmptyRootList] asks of the drivers
    with the root directories [""] and ["/"]. *)
Theorem List_entries_well_formed d path fuel w :
  script w = [] ->
  path <> "" ->
  (forall k, is_Some (objects w !! k) ->
             String.prefix (getKey d (listing_path path)) k = true ->
             exists p, path_ok p = true ∧ k = getKey d p) ->
  (size (objects w) < fuel)%nat ->
  exists entries w',
    List fuel d path w = Returns (entries, None) w'
    ∧ Forall (fun e => path_ok e = true) entries.
Proof.
  intros Hs Hp Hkeys Hfuel. rewrite (List_unfold fuel d path w Hp).
  set (q := listing_path path) in *.
  apply List_loop_entries; [done | | | | done | done].
  - pose proof (matching_length (objects w) (getKey d q) ""). lia.
  - intros k o Ho Hk _. destruct (Hkeys k) as (p & Hok & ->); [by eexists | done |].
    unfold file_entry. by rewrite entry_of_path.
  - intros k o cp Ho Hk Hcp. destruct (Hkeys k) as (p & Hok & Hkp); [by eexists | done |].
    destruct (directory_entry_key d q k cp Hk Hcp) as (name & r & _ & Hkey & Htrim & _).
    unfold directory_entry. rewrite Htrim.
    assert (Hroot : String.prefix (getKey d "") (getKey d q +:+ name) = true)
      by apply prefix_app_r, root_is_prefix.
    rewrite (replace_root d _ Hroot).
    pose proof (entry_of_path d p Hok) as Hentry.
    rewrite <- Hkp, Hkey, replace_root in Hentry by by apply prefix_app_r.
    rewrite (drop_app_prefix _ _ _ Hroot), <- app_assoc_str in Hentry.
    rewrite <- Hentry in Hok. apply (path_ok_parent _ r Hok).
    unfold root_prefix. destruct (String.eqb_spec (getKey d "") "") as [Hr|Hr]; [done|].
    rewrite (getKey_rooted d q Hr), app_assoc_str, drop_app, app_empty_l.
    pose proof (listing_path_nonempty path Hp). fold q in H. by destruct q.
Qed.

Lemma List_entries_well_formed_sample :
  let w := (PutContent rooted_driver "/test" (bytes "contents") (sample_world ∅)).2 in
  (exists entries w',
     List 2 empty_root_driver "/" w = Returns (entries, None) w'
     ∧ Forall (fun e => path_ok e = true) entries)
  ∧ (exists entries w',
       List 2 slash_root_driver "/" w = Returns (entries, None) w'
       ∧ Forall (fun e => path_ok e = true) entries).
Proof.
  intros w.
  assert (Hkeys : forall k, is_Some (objects w !! k) -> k = "tmp/driver-1/test"%string).
  { intros k [o Ho]. subst w. simpl in Ho.
    apply lookup_insert_Some in Ho as [[<- _]|[_ Ho]]; [reflexivity|].
    by rewrite lookup_empty in Ho. }
  split.
  - apply (List_entries_well_formed empty_root_driver "/" 2 w);
      [reflexivity | discriminate | | vm_compute; lia].
    intros k ->%Hkeys _. by exists "/tmp/driver-1/test"%string.
  - apply (List_entries_well_formed slash_root_driver "/" 2 w);
      [reflexivity | discriminate | | vm_compute; lia].
    intros k ->%Hkeys _. by exists "/tmp/driver-1/test"%string.
Defined.

Example TestEmptyRootList_entries :
  let w := (PutContent rooted_driver "/test" (bytes "contents") (sample_world ∅)).2 in
  (exists w', List 2 empty_root_driver "/" w = Returns (["/tmp"%string], None) w')
  ∧ (exists w', List 2 slash_root_driver "/" w = Returns (["/tmp"%string], None) w').
Proof. split; eexists; vm_compute; reflexivity. Qed.

(** *** Entries are found *)

(** X25: what [List] returns, [Stat] finds: in the same bucket, the
    lookup of every entry reports a file or a directory, never that the
    path is not found. *)
Theorem List_entries_are_found d path fuel w :
  script w = [] ->
  path <> "" ->
  (size (objects w) < fuel)%nat ->
  exists entries w',
    List fuel d path w = Returns (entries, None) w'
    ∧ Forall (fun e => exists fi, (Stat d e w).1 = (Some fi, None)) entries.
Proof.
  intros Hs Hp Hfuel. rewrite (List_unfold fuel d path w Hp).
  apply List_loop_entries; [done | | | | done | done].
  - pose proof (matching_length (objects w) (getKey d (listing_path path)) ""). lia.
  - intros k o Ho Hk Hcp.
    destruct (file_entry_key d _ k Hk Hcp) as (_ & _ & _ & He).
    exists (file_info (file_entry d (root_prefix d) k) o).
    rewrite (Stat_stored d _ o w Hs); [done | by rewrite He].
  - intros k o cp Ho Hk Hcp.
    destruct (directory_entry_key d _ k cp Hk Hcp) as (name & r & _ & Hkey & _ & He).
    set (e := directory_entry d (root_prefix d) cp) in *.
    destruct (objects w !! getKey d e) as [o'|] eqn:Hstored.
    + exists (file_info e o'). by rewrite (Stat_stored d e o' w Hs Hstored).
    + exists (directory_info e). rewrite (Stat_directory d e w Hs Hstored); [done|].
      exists k. split; [by eexists|]. rewrite He, Hkey. apply prefix_app.
Qed.

Lemma List_entries_are_found_sample :
  exists entries w',
    List 4 sample_driver "/" (sample_world sample_tree) = Returns (entries, None) w'
    ∧ Forall (fun e => exists fi, (Stat sample_driver e (sample_world sample_tree)).1
                                  = (Some fi, None)) entries.
Proof.
  apply (List_entries_are_found sample_driver "/" 4 (sample_world sample_tree));
    [reflexivity | discriminate | vm_compute; lia].
Defined.

(** ** After a delete *)

Lemma bucket_Delete_script key w : script w = [] -> script (bucket_Delete key w).2 = [].
Proof.
  intros Hs. destruct w as [m s t n dom]. simpl in *. subst s.
  unfold bucket_Delete, bind, emit, attempt, world, store, ret, log, set_objects. simpl.
  by destruct (m !! key).
Qed.

Lemma Delete_items_script items w : script w = [] -> script (Delete_items items w).2 = [].
Proof.
  revert w. induction items as [|item items IH]; intros w Hs; [done|].
  cbn [Delete_items]. unfold bind.
  pose proof (bucket_Delete_script (kodo.Key item) w Hs) as Hd.
  destruct (bucket_Delete (kodo.Key item) w) as [[e|] w1]; simpl in Hd.
  - destruct (isKeyNotExists e); [by apply IH | done].
  - by apply IH.
Qed.

Lemma Delete_loop_script fuel d path marker cnt w r w' :
  script w = [] ->
  Delete_loop fuel d path marker cnt w = Returns r w' ->
  script w' = [].
Proof.
  revert marker cnt w. induction fuel as [|fuel IH]; intros marker cnt w Hs; [done|].
  cbn [Delete_loop]. rewrite (bucket_List_flat _ marker listMax w Hs). cbv zeta.
  set (w1 := log _ w). assert (Hs1 : script w1 = []) by (by destruct w).
  set (page := list_item <$> _). set (next := page_marker _ _ _). cbv beta iota.
  assert (Herr : match (if String.eqb next "" then Some EOF else None) with
                 | Some e => if decide (e = EOF) then None else Some e
                 | None => None
                 end = None) by (by destruct (String.eqb next "")).
  rewrite Herr. clear Herr.
  destruct (Int64.add cnt _ =? 0); [by intros [= _ <-]|].
  pose proof (Delete_items_script page w1 Hs1) as Hd.
  destruct (Delete_items page w1) as [[e|] w2]; simpl in Hd; [by intros [= _ <-]|].
  destruct (String.eqb next ""); [by intros [= _ <-]|].
  by apply IH.
Qed.

(** With nothing stored under the key of the path, [Delete] lists once
    and reports that the path is not found. *)
Lemma Delete_nothing d path fuel w :
  script w = [] ->
  (0 < fuel)%nat ->
  (forall k, is_Some (objects w !! k) -> String.prefix (getKey d path) k = false) ->
  Delete fuel d path w
  = Returns (Some (PathNotFoundError path)) (log (EvList (getKey d path) "" "" listMax) w).
Proof.
  intros Hs Hfuel Hno. destruct fuel as [|fuel]; [lia|].
  unfold Delete. cbn [Delete_loop].
  rewrite (bucket_List_flat _ "" listMax w Hs). cbv zeta.
  assert (E : matching (objects w) (getKey d path) "" = []).
  { destruct (matching (objects w) (getKey d path) "") as [|[k o] rest] eqn:E; [done|].
    assert (Hin : (k, o) ∈ matching (objects w) (getKey d path) "") by (rewrite E; left).
    apply elem_of_matching in Hin as (Hm & Hp & _).
    rewrite Hno in Hp by eauto. done. }
  rewrite E. reflexivity.
Qed.

Lemma prefix_nil s : String.prefix "" s = true.
Proof. by destruct s. Qed.

Lemma prefix_trans a b k :
  String.prefix a b = true -> String.prefix b k = true -> String.prefix a k = true.
Proof.
  intros Hab%prefix_split Hbk%prefix_split. rewrite Hbk, Hab, app_assoc_str.
  apply prefix_app.
Qed.

(** The key of the path [List] lists under starts with the key of the
    path it was given. *)
Lemma getKey_listing_path d path :
  String.prefix (getKey d path) (getKey d (listing_path path)) = true.
Proof.
  unfold listing_path. destruct (String.eqb path "/"); [apply prefix_refl|].
  destruct (GoStrings.last_byte path) as [c|]; [|apply prefix_refl].
  destruct (Ascii.eqb c "/"); [apply prefix_refl|].
  unfold getKey. rewrite <- app_assoc_str.
  destruct (decide (GoStrings.TrimLeft (RootDirectory (params d) +:+ path) "/" = ""))
    as [->|Hne]; [apply prefix_nil|].
  rewrite (TrimLeft_app (RootDirectory (params d) +:+ path) "/" "/" Hne). apply prefix_app.
Qed.

(** X26: what [Delete] removed is gone for the driver: after a delete
    that went through, [Stat] of the same path reports not found, so does
    a second [Delete], and [List] of the path returns nothing. *)
Theorem Delete_then_not_found d path fuel w :
  script w = [] ->
  Z.of_nat (size (objects w)) <= Int64.max_int ->
  (size (objects w) < fuel)%nat ->
  (exists k, is_Some (objects w !! k) ∧ String.prefix (getKey d path) k = true) ->
  exists w',
    Delete fuel d path w = Returns None w'
    ∧ (Stat d path w').1 = (None, Some (PathNotFoundError path))
    ∧ (exists w'', Delete fuel d path w' = Returns (Some (PathNotFoundError path)) w'')
    ∧ (path <> "" -> exists w'', List fuel d path w' = Returns ([], None) w'').
Proof.
  intros Hs Hmax Hfuel (k & [o Ho] & Hp).
  pose proof (matching_length (objects w) (getKey d path) "") as Hlen.
  destruct (Delete_loop_sweeps d path fuel "" 0 w) as (w' & Hrun & Hlook);
    [done | lia | lia | lia | |].
  { intros _ E.
    assert (Hin : (k, o) ∈ matching (objects w) (getKey d path) "").
    { apply elem_of_matching. split_and!; [done | done | by left]. }
    rewrite E in Hin. by apply elem_of_nil in Hin. }
  assert (Hs' : script w' = []) by (by apply (Delete_loop_script _ _ _ _ _ _ _ _ Hs Hrun)).
  assert (Hno : forall k', is_Some (objects w' !! k') ->
                           String.prefix (getKey d path) k' = false).
  { intros k' [o' Ho']. rewrite Hlook in Ho'. unfold swept in Ho'.
    destruct (String.prefix (getKey d path) k') eqn:Hp'; [|done].
    rewrite decide_True in Ho'; [done | split; [done | by left]]. }
  exists w'. split_and!.
  - done.
  - by rewrite (Stat_nothing d path w' Hs' Hno).
  - eexists. apply Delete_nothing; [done | lia | done].
  - intros Hpath. eexists. apply List_nothing; [done | done | lia |].
    intros k' Hk'. specialize (Hno k' Hk').
    destruct (String.prefix (getKey d (listing_path path)) k') eqn:Hl; [|done].
    by rewrite (prefix_trans _ _ _ (getKey_listing_path d path) Hl) in Hno.
Qed.

Lemma Delete_then_not_found_sample :
  exists w',
    Delete 4 sample_driver "/a" (sample_world sample_tree) = Returns None w'
    ∧ (Stat sample_driver "/a" w').1 = (None, Some (PathNotFoundError "/a"))
    ∧ (exists w'', Delete 4 sample_driver "/a" w' = Returns (Some (PathNotFoundError "/a")) w'')
    ∧ ("/a"%string <> ""%string ->
       exists w'', List 4 sample_driver "/a" w' = Returns ([], None) w'').
Proof.
  apply (Delete_then_not_found sample_driver "/a" 4 (sample_world sample_tree));
    [reflexivity | vm_compute; discriminate | vm_compute; lia |].
  exists "root/a/b"%string. split; [by eexists | reflexivity].
Defined.

(** ** Download links *)

(** X27: [URLFor] never fails, and the link it signs lives for the time
    left until the expiry asked for when that lies ahead (by less than
    [2^32] seconds) and for [defaultExpiry] seconds when it does not, or
    when no expiry time is given. *)
Theorem URLFor_lifetime d path options unixNow :
  (URLFor d path options unixNow).2 = None
  ∧ (forall t, options !! "expiry" = Some (VTime t) ->
               0 < t - unixNow < 2 ^ 32 ->
               URLFor_expires options unixNow = t - unixNow)
  ∧ (forall t, options !! "expiry" = Some (VTime t) ->
               Int64.min_int <= t - unixNow <= 0 ->
               URLFor_expires options unixNow = defaultExpiry)
  ∧ ((forall t, options !! "expiry" <> Some (VTime t)) ->
     URLFor_expires options unixNow = defaultExpiry).
Proof.
  split_and!; [done | | |].
  - intros t Ht Hin. unfold URLFor_expires. rewrite Ht. cbv zeta.
    rewrite Int64_sub_exact by (unfold Int64.in_range, Int64.min_int, Int64.max_int; lia).
    assert ((t - unixNow >? 0) = true) as -> by (rewrite Z.gtb_ltb; apply Z.ltb_lt; lia).
    unfold to_uint32. apply Z.mod_small. lia.
  - intros t Ht Hin. unfold URLFor_expires. rewrite Ht. cbv zeta.
    rewrite Int64_sub_exact by (unfold Int64.in_range, Int64.min_int, Int64.max_int in *; lia).
    by assert ((t - unixNow >? 0) = false) as -> by (rewrite Z.gtb_ltb; apply Z.ltb_ge; lia).
  - intros Hno. unfold URLFor_expires.
    destruct (options !! "expiry") as [[| | | t |]|]; try done. by destruct (Hno t).
Qed.

Example URLFor_sample :
  URLFor_expires {["expiry" := VTime 1700000600]} 1700000000 = 600
  ∧ URLFor_expires {["expiry" := VTime 1600000000]} 1700000000 = 3600
  ∧ URLFor_expires {["expiry" := VString "soon"]} 1700000000 = 3600
  ∧ URLFor sample_driver "/foo" ∅ 1700000000 = ("http://cdn.example/root/foo"%string, None).
Proof. split_and!; vm_compute; reflexivity. Qed.

(** ** Failures of the remote service *)

(** X28: no operation retries or hides a failed call.  When the first
    call to the remote service fails, every operation returns after that
    one call with the error as it came, but for the reply 612 which
    [ReadStream], [GetContent] and [Move] turn into the not-found error of
    the path, and [io.EOF] which a listing treats as its end. *)
Theorem first_failure_is_returned d path offset body fuel e s w :
  script w = Some e :: s ->
  let failed ev := set_script s (log ev w) in
  PutContent d path body w = (Some e, failed (EvPut (getKey d path) body))
  ∧ ReadStream d path offset w
    = ((None, parseError path (Some e)), failed (EvStat (getKey d path)))
  ∧ GetContent d path w
    = ((None, parseError path (Some e)), failed (EvStat (getKey d path)))
  ∧ (forall destPath,
       Move d path destPath w = (parseError path (Some e), failed (EvStat (getKey d path))))
  ∧ (e <> EOF ->
     Stat d path w = ((None, Some e), failed (EvList (getKey d path) "" "" 1))
     ∧ ((0 < fuel)%nat ->
        Delete fuel d path w
        = Returns (Some e) (failed (EvList (getKey d path) "" "" listMax)))
     ∧ ((0 < fuel)%nat -> path <> "" ->
        List fuel d path w
        = Returns ([], Some e)
            (failed (EvList (getKey d (listing_path path)) "/" "" listMax)))).
Proof.
  intros Hs failed. subst failed. destruct w as [m sc t n dom]. simpl in Hs. subst sc.
  split_and!.
  - reflexivity.
  - unfold ReadStream, bind, bucket_Stat, bind, emit, attempt, world, ret, log, set_script.
    simpl. by destruct e as [code msg| | |]; [destruct (code =? 612)| | |].
  - unfold GetContent, ReadStream, bind, bucket_Stat, bind, emit, attempt, world, ret, log,
      set_script.
    simpl. by destruct e as [code msg| | |]; [destruct (code =? 612)| | |].
  - intros destPath.
    unfold Move, bind, bucket_Stat, bind, emit, attempt, world, ret, log, set_script.
    simpl. by destruct e as [code msg| | |]; [destruct (code =? 612)| | |].
  - intros He.
    assert (Hkeep : match Some e with
                    | Some e0 => if decide (e0 = EOF) then None else Some e0
                    | None => None
                    end = Some e) by (by rewrite decide_False).
    split_and!.
    + unfold Stat, bind, bucket_List, bind, emit, attempt, world, ret, log, set_script.
      simpl. by rewrite decide_False.
    + intros Hfuel. destruct fuel as [|fuel]; [lia|].
      unfold Delete. cbn [Delete_loop].
      unfold bucket_List, bind, emit, attempt, world, ret, log, set_script. simpl.
      by rewrite decide_False.
    + intros Hfuel Hp. rewrite List_unfold by done.
      destruct fuel as [|fuel]; [lia|]. cbn [List_loop].
      unfold bucket_List, bind, emit, attempt, world, ret, log, set_script. simpl.
      by rewrite decide_False.
Qed.

Lemma first_failure_is_returned_sample :
  let w := set_script [Some (ErrorInfo 612 "no such file or directory")]
             (sample_world sample_tree) in
  (ReadStream sample_driver "/foo" 0 w).1 = (None, Some (PathNotFoundError "/foo"))
  ∧ (Stat sample_driver "/foo" w).1
    = (None, Some (ErrorInfo 612 "no such file or directory"))
  ∧ (PutContent sample_driver "/foo" (bytes "x") w).1
    = Some (ErrorInfo 612 "no such file or directory").
Proof.
  intros w.
  destruct (first_failure_is_returned sample_driver "/foo" 0 (bytes "x") 1
              (ErrorInfo 612 "no such file or directory") [] w eq_refl)
    as (Hput & Hread & _ & _ & Hlist).
  destruct Hlist as (Hstat & _); [discriminate|].
  split_and!; [by rewrite Hread | by rewrite Hstat | by rewrite Hput].
Defined.

(** [WriteStream] on a path the lookup reports as a directory: the parts
    are built for an object of size zero. *)
Lemma WriteStream_directory d path offset data w :
  script w = [] ->
  objects w !! getKey d path = None ->
  (exists k, is_Some (objects w !! k) ∧ String.prefix (getKey d path) k = true) ->
  WriteStream d path offset data w
  = (let key := getKey d path in
     let written := Z.of_nat (length data) in
     let parts := WriteStream_parts key offset written 0 data in
     let w' := log (EvPutParts key parts) (log (EvList key "" "" 1) w) in
     match compose (objects w) parts with
     | inl e => ((0, Some e), w')
     | inr bytes =>
         ((written, None),
          set_objects (<[key := {| content := bytes; putTime := now w |}]> (objects w)) w')
     end).
Proof.
  intros Hs Hnone Hsome. unfold WriteStream, bind at 1.
  rewrite (Stat_directory d path w Hs Hnone Hsome).
  destruct w as [m s t n dom]. simpl in *. subst s.
  unfold bind, attempt, qiniurs_PutParts, bind, emit, attempt, world, store, ret, log.
  simpl. destruct (compose m _); reflexivity.
Qed.

(** X29: a first write under a key that other keys start with is not a
    first write for [WriteStream].  The lookup reports a directory of size
    zero, so the bytes go into a compose request: at offset zero the
    request holds the incoming bytes alone and stores them; at a later
    offset it starts with the whole of the object that is not there, and
    the write fails. *)
Theorem WriteStream_under_directory d path offset data w :
  script w = [] ->
  objects w !! getKey d path = None ->
  (exists k, is_Some (objects w !! k) ∧ String.prefix (getKey d path) k = true) ->
  0 <= offset <= Int64.max_int ->
  let key := getKey d path in
  let parts :=
    if offset =? 0 then [LocalBytes data]
    else [RemoteRange key 0 (-1); LocalBytes (replicate (Z.to_nat offset) Byte.x00);
          LocalBytes data] in
  let w' := (WriteStream d path offset data w).2 in
  trace w' = trace w ++ [EvList key "" "" 1; EvPutParts key parts]
  ∧ (offset = 0 ->
     (WriteStream d path offset data w).1 = (Z.of_nat (length data), None)
     ∧ content <$> objects w' !! key = Some data)
  ∧ (0 < offset ->
     (WriteStream d path offset data w).1 = (0, Some (KeyNotExists key))
     ∧ objects w' = objects w).
Proof.
  intros Hs Hnone Hsome Hoff key parts w'. subst w'.
  rewrite (WriteStream_directory d path offset data w Hs Hnone Hsome). cbv zeta. fold key.
  assert (Hparts : WriteStream_parts key offset (Z.of_nat (length data)) 0 data = parts).
  { subst parts. unfold WriteStream_parts. destruct (offset =? 0) eqn:H0.
    - by assert ((Z.of_nat (length data) <? 0) = false) as -> by (apply Z.ltb_ge; lia).
    - apply Z.eqb_neq in H0.
      assert ((offset <? 0) = false) as -> by (apply Z.ltb_ge; lia).
      assert ((offset >? 0) = true) as -> by (rewrite Z.gtb_ltb; apply Z.ltb_lt; lia).
      cbv zeta. rewrite Int64_sub_exact, Z.sub_0_r;
        [done | unfold Int64.in_range, Int64.min_int, Int64.max_int in *; lia]. }
  rewrite Hparts. subst parts. destruct (offset =? 0) eqn:H0.
  - apply Z.eqb_eq in H0.
    assert (compose (objects w) [LocalBytes data] = inr data) as ->
      by (cbn [compose]; by rewrite part_bytes_local, app_nil_r).
    destruct w as [m s t n dom]. simpl. rewrite <- app_assoc.
    split_and!; [done | | lia]. intros _. split; [done|]. by rewrite lookup_insert_eq.
  - apply Z.eqb_neq in H0.
    assert (compose (objects w)
              [RemoteRange key 0 (-1); LocalBytes (replicate (Z.to_nat offset) Byte.x00);
               LocalBytes data] = inl (KeyNotExists key)) as ->.
    { cbn [compose]. unfold part_bytes at 1. cbn [qiniurs.R qiniurs.Key RemoteRange].
      subst key. by rewrite Hnone. }
    destruct w as [m s t n dom]. simpl. rewrite <- app_assoc.
    split_and!; [done | lia | done].
Qed.

Lemma WriteStream_under_directory_sample :
  let w := sample_world sample_tree in
  (WriteStream sample_driver "/a" 0 (bytes "x") w).1 = (1, None)
  ∧ (WriteStream sample_driver "/a" 3 (bytes "x") w).1 = (0, Some (KeyNotExists "root/a")).
Proof.
  intros w.
  assert (Hsome : exists k, is_Some (objects w !! k)
                            ∧ String.prefix (getKey sample_driver "/a") k = true).
  { exists "root/a/b"%string. split; [by eexists | reflexivity]. }
  split.
  - destruct (WriteStream_under_directory sample_driver "/a" 0 (bytes "x") w eq_refl)
      as (_ & Hzero & _); [vm_compute; reflexivity | done | vm_compute; split; discriminate |].
    by destruct Hzero.
  - destruct (WriteStream_under_directory sample_driver "/a" 3 (bytes "x") w eq_refl)
      as (_ & _ & Hlater); [vm_compute; reflexivity | done | vm_compute; split; discriminate |].
    destruct Hlater as [Hr _]; [lia | exact Hr].
Defined.

Lemma bucket_List_flat_next prefix marker limit w s :
  script w = None :: s ->
  bucket_List prefix "" marker limit w
  = (let kos := matching (objects w) prefix marker in
     let next := page_marker (page_size limit) "" kos in
     ((list_item <$> take (page_size limit) kos, [], next,
       if String.eqb next "" then Some EOF else None),
      set_script s (log (EvList prefix "" marker limit) w))).
Proof.
  intros Hs. destruct w as [m sc t n dom]. simpl in *. subst sc.
  unfold bucket_List, bind, emit, attempt, world, ret, log, set_script. simpl.
  by rewrite scan_flat.
Qed.

(** Deletes that are all answered with 612 go through the whole page
    and change nothing. *)
Lemma Delete_items_gone items es s w :
  script w = (Some <$> es) ++ s ->
  length es = length items ->
  Forall (fun e => isKeyNotExists e = true) es ->
  Delete_items items w
  = (None,
     {| objects := objects w; script := s;
        trace := trace w ++ ((fun item => EvDelete (kodo.Key item)) <$> items);
        now := now w; domain := domain w |}).
Proof.
  revert es w. induction items as [|item items IH]; intros es w Hs Hlen Hall.
  - destruct es; [|done]. destruct w. simpl in *. subst. by rewrite app_nil_r.
  - destruct es as [|e es]; [done|]. apply Forall_cons in Hall as [He Hall].
    injection Hlen as Hlen. cbn [Delete_items].
    destruct w as [m sc t n dom]. simpl in Hs. subst sc.
    unfold bind at 1, bucket_Delete, bind, emit, attempt, world, ret, log, set_script.
    simpl. rewrite He. rewrite (IH es); [| done | done | done].
    simpl. by rewrite <- app_assoc.
Qed.

(** X30: a key that is gone by the time it is deleted does not fail the
    delete.  When the deletes of a page are all answered with 612,
    [Delete] still returns no error, and the bucket is as it was. *)
Theorem Delete_tolerates_missing_keys d path fuel es w :
  script w = None :: (Some <$> es) ->
  Forall (fun e => isKeyNotExists e = true) es ->
  length es = length (matching (objects w) (getKey d path) "") ->
  (0 < length es <= 1000)%nat ->
  (0 < fuel)%nat ->
  exists w',
    Delete fuel d path w = Returns None w'
    ∧ objects w' = objects w
    ∧ script w' = [].
Proof.
  intros Hs Hall Hlen Hpage Hfuel. destruct fuel as [|fuel]; [lia|].
  unfold Delete. cbn [Delete_loop].
  rewrite (bucket_List_flat_next _ "" listMax w _ Hs). cbv zeta.
  rewrite page_size_listMax.
  set (kos := matching (objects w) (getKey d path) "") in *.
  rewrite take_ge by lia.
  assert (page_marker 1000 "" kos = "") as ->
    by (unfold page_marker; rewrite decide_True; [done | lia]).
  cbn [String.eqb]. rewrite decide_True by done. rewrite length_fmap.
  rewrite Int64_add_exact
    by (unfold Int64.in_range, Int64.min_int, Int64.max_int; lia).
  assert ((0 + Z.of_nat (length kos) =? 0) = false) as -> by (apply Z.eqb_neq; lia).
  rewrite (Delete_items_gone _ es []);
    [| destruct w; simpl; by rewrite app_nil_r | by rewrite length_fmap | done].
  eexists. split; [done|]. by destruct w.
Qed.

Lemma Delete_tolerates_missing_keys_sample :
  exists w',
    Delete 1 sample_driver "/a"
      (set_script [None; Some (ErrorInfo 612 "no such file or directory");
                   Some (ErrorInfo 612 "no such file or directory")]
         (sample_world sample_tree))
    = Returns None w'
    ∧ objects w' = sample_tree
    ∧ script w' = [].
Proof.
  apply (Delete_tolerates_missing_keys sample_driver "/a" 1
           [ErrorInfo 612 "no such file or directory";
            ErrorInfo 612 "no such file or directory"]
           (set_script [None; Some (ErrorInfo 612 "no such file or directory");
                        Some (ErrorInfo 612 "no such file or directory")]
              (sample_world sample_tree)));
    [reflexivity | by repeat constructor | vm_compute; reflexivity | simpl; lia | lia].
Defined.
